(** * SOI crossings and closest approach of a PHA: a model of [try_3.py]

    The development embeds [draft_examples/try_3.py]:
    [quadratic_approximation] and [calculate_crossings].

    Numbers.  Ephemeris times and distances are Python floats in the source.
    They are modelled here as exact rationals ([Q]): rounding is not
    modelled, comparisons and arithmetic are exact.  [np.inf] is the
    constructor [Inf] of [dist].

    Collaborators.  The SPICE routines ([conics], [spkgeo], [oscelt],
    [vnorm]) and scipy's [brentq] are not part of the repository: they are
    variables of the section [Ephemeris].  [brentq] returns [None] where
    scipy raises [ValueError].  [np.polyfit] on three points is modelled by
    [polyfit2], the interpolating parabola.

    Diagnostics.  The [print] calls are not modelled, except that the
    distance evaluations they make are recorded.  Every evaluation of a
    distance and every call of the root finder made by
    [calculate_crossings] is recorded, in order, in a list of [event]s
    returned next to the outcome. *)

From Stdlib Require Import QArith Qabs ZArith Lia Lqa List String Bool.
Import ListNotations.
Open Scope Q_scope.

(** ** Numbers *)

(** Strict comparison of floats, [x < y]. *)
Definition Qltb (x y : Q) : bool := negb (Qle_bool y x).

(** A distance that may still be [np.inf]. *)
Inductive dist : Type :=
| Finite (d : Q)
| Inf.

(** [d < m] where [m] may be [np.inf]. *)
Definition dist_ltb (d : Q) (m : dist) : bool :=
  match m with
  | Inf => true
  | Finite m' => Qltb d m'
  end.

(** [d <= m] as a proposition, [m] possibly [np.inf]. *)
Definition dist_le (m : dist) (d : Q) : Prop :=
  match m with
  | Inf => False
  | Finite m' => m' <= d
  end.

(** ** quadratic_approximation (lines 5-15) *)

(** [ts.mean()] for the three-element array [ts]. *)
Definition mean3 (t1 t2 t3 : Q) : Q := (t1 + t2 + t3) / 3.

(** [np.polyfit(xs, ys, 2)] for three points, highest degree first.  For
    pairwise distinct abscissae the least-squares parabola is the
    interpolating one; it is written here with divided differences.  The
    model says nothing faithful about repeated abscissae. *)
Definition polyfit2 (x1 y1 x2 y2 x3 y3 : Q) : Q * Q * Q :=
  let f12 := (y2 - y1) / (x2 - x1) in
  let f23 := (y3 - y2) / (x3 - x2) in
  let a := (f23 - f12) / (x3 - x1) in
  let b := f12 - a * (x1 + x2) in
  let c := y1 - a * x1 * x1 - b * x1 in
  (a, b, c).

Definition quadratic_approximation (t1 d1 t2 d2 t3 d3 : Q) : Q :=
  let m := mean3 t1 t2 t3 in
  let '(a, b, _) := polyfit2 (t1 - m) d1 (t2 - m) d2 (t3 - m) d3 in
  let t_min_local := - b / (2 * a) in
  t_min_local + m.

(** ** Outcomes, local variables and the record of evaluations *)

Inductive exn : Type :=
| RuntimeError (msg : string)
| ValueError
| IndexError.

(** How a [for] loop (or one pass of its body) ended. *)
Inductive flow : Type :=
| Continue          (* ran to the end: the loop's [else] branch applies *)
| Break
| Raise (e : exn).

(** Where in [calculate_crossings] a distance was evaluated. *)
Inductive site : Type :=
| FirstScan | FirstReport | InsideScan | VertexEval | SecondScan | SecondReport.

Inductive event : Type :=
| Eval (s : site) (t d : Q)
| Refine (s : site) (a b : Q) (root : option Q).

(** The local variables of [calculate_crossings] that the loops update. *)
Record locals : Type := mkLocals {
  dt_et : Q;
  step : Q;
  soi_crossings : list Q;
  min_distance : dist;
  min_et : option Q;
  bracket : list (Q * Q)
}.

Definition set_dt_et (l : locals) (t : Q) : locals :=
  mkLocals t (step l) (soi_crossings l) (min_distance l) (min_et l) (bracket l).

Definition set_step (l : locals) (s : Q) : locals :=
  mkLocals (dt_et l) s (soi_crossings l) (min_distance l) (min_et l) (bracket l).

Definition set_soi_crossings (l : locals) (c : list Q) : locals :=
  mkLocals (dt_et l) (step l) c (min_distance l) (min_et l) (bracket l).

Definition set_min (l : locals) (d : Q) (t : Q) : locals :=
  mkLocals (dt_et l) (step l) (soi_crossings l) (Finite d) (Some t) (bracket l).

Definition set_bracket (l : locals) (b : list (Q * Q)) : locals :=
  mkLocals (dt_et l) (step l) (soi_crossings l) (min_distance l) (min_et l) b.

(** What a loop hands back: how it ended, the variables, what it evaluated. *)
Definition result : Type := flow * locals * list event.

Definition logged (evs : list event) (r : result) : result :=
  let '(fl, l, tr) := r in (fl, l, evs ++ tr).

(** What a call of [calculate_crossings] produces. *)
Record run : Type := mkRun {
  outcome : exn + (list Q * option Q * dist);
  events : list event
}.

(** Elementwise [u - v] of two numpy arrays of one shape. *)
Definition vsub (u v : list Q) : list Q :=
  map (fun p => fst p - snd p) (combine u v).

Definition LD : Q := 384400.
Definition GM_EARTH : Q := 3986004418 # 10000.
Definition EARTH_ID : Z := 399.
Definition SUN_ID : Z := 10.

Section Ephemeris.

(** [spice.conics(elements, t)]: state of the body at [t]. *)
Variable conics : list Q -> Q -> list Q.
(** [spice.spkgeo(target, t, frame, observer)]: state and light time. *)
Variable spkgeo : Z -> Q -> string -> Z -> list Q * Q.
(** [spice.oscelt(state, t, mu)]: osculating elements. *)
Variable oscelt : list Q -> Q -> Q -> list Q.
(** [spice.vnorm(v)]. *)
Variable vnorm : list Q -> Q.
(** [brentq(f, a, b)]; [None] where scipy raises [ValueError]. *)
Variable brentq : (Q -> Q) -> Q -> Q -> option Q.

(** Lines 38-42. *)
Definition distance_from_earth (t : Q) (pha_elements : list Q) : Q :=
  let pha_vec := conics pha_elements t in
  let '(earth_vec, _) := spkgeo EARTH_ID t "ECLIPJ2000" SUN_ID in
  let pha_wrt_earth := vsub pha_vec earth_vec in
  vnorm (firstn 3 pha_wrt_earth).

(** Lines 70-71 and 79-80: the norm of the position given by the
    elements, nothing subtracted. *)
Definition earth_dist_at (el : list Q) (t : Q) : Q :=
  let pha_vec := conics el t in
  vnorm (firstn 3 pha_vec).

(** *** First crossing, lines 46-58 (without the [else]) *)
Fixpoint first_crossing_scan (pha_el : list Q) (soi : Q)
         (n : nat) (l : locals) : result :=
  match n with
  | O => (Continue, l, [])
  | S n' =>
    let d := distance_from_earth (dt_et l) pha_el in
    if Qle_bool d soi then
      let a := dt_et l - step l in
      let root := brentq (fun t => distance_from_earth t pha_el - soi)
                         a (dt_et l) in
      match root with
      | Some t_entry =>
        (Break, set_soi_crossings l (soi_crossings l ++ [t_entry]),
         [Eval FirstScan (dt_et l) d;
          Refine FirstScan a (dt_et l) root;
          Eval FirstReport t_entry (distance_from_earth t_entry pha_el)])
      | None =>
        (Raise ValueError, l,
         [Eval FirstScan (dt_et l) d; Refine FirstScan a (dt_et l) root])
      end
    else
      logged [Eval FirstScan (dt_et l) d]
             (first_crossing_scan pha_el soi n'
                (set_dt_et l (dt_et l + step l)))
  end.

(** *** Closest approach inside the SOI, lines 69-95 *)

(** Lines 91-95: fold the sample into the running minimum, advance. *)
Definition fold_and_advance (earth_dist : Q) (l : locals) : locals :=
  let l' := if dist_ltb earth_dist (min_distance l)
            then set_min l earth_dist (dt_et l) else l in
  set_dt_et l' (dt_et l' + step l').

(** One pass of the loop body, lines 70-95. *)
Definition closest_body (el : list Q) (l : locals) : result :=
  let earth_dist := earth_dist_at el (dt_et l) in
  let l1 := set_bracket l (bracket l ++ [(dt_et l, earth_dist)]) in
  match bracket l1 with
  | [(t1, d1); (t2, d2); (t3, d3)] =>
    if Qltb d2 d1 && Qltb d2 d3 then
      let t_min := quadratic_approximation t1 d1 t2 d2 t3 d3 in
      let d_min := earth_dist_at el t_min in
      (Break,
       set_step (set_dt_et (set_min l1 d_min t_min) (t_min + 10)) 10,
       [Eval InsideScan (dt_et l) earth_dist; Eval VertexEval t_min d_min])
    else
      (Continue,
       fold_and_advance earth_dist (set_bracket l1 (tl (bracket l1))),
       [Eval InsideScan (dt_et l) earth_dist])
  | _ =>
    (Continue, fold_and_advance earth_dist l1,
     [Eval InsideScan (dt_et l) earth_dist])
  end.

Fixpoint closest_approach_scan (el : list Q) (n : nat) (l : locals)
  : result :=
  match n with
  | O => (Continue, l, [])
  | S n' =>
    match closest_body el l with
    | (Continue, l', tr) => logged tr (closest_approach_scan el n' l')
    | r => r
    end
  end.

(** *** Second crossing, lines 98-108 *)
Fixpoint second_crossing_scan (el : list Q) (soi : Q)
         (n : nat) (l : locals) : result :=
  match n with
  | O => (Continue, l, [])
  | S n' =>
    let d := distance_from_earth (dt_et l) el in
    if Qle_bool soi d then
      let a := dt_et l - step l in
      let root := brentq (fun t => distance_from_earth t el - soi)
                         a (dt_et l) in
      match root with
      | Some t_exit =>
        (Break, set_soi_crossings l (soi_crossings l ++ [t_exit]),
         [Eval SecondScan (dt_et l) d;
          Refine SecondScan a (dt_et l) root;
          Eval SecondReport t_exit (distance_from_earth t_exit el)])
      | None =>
        (Raise ValueError, l,
         [Eval SecondScan (dt_et l) d; Refine SecondScan a (dt_et l) root])
      end
    else
      logged [Eval SecondScan (dt_et l) d]
             (second_crossing_scan el soi n'
                (set_dt_et l (dt_et l + step l)))
  end.

(** *** calculate_crossings, lines 17-111 *)

(** Lines 32-36 and 45. *)
Definition initial_locals (dt_et_start : Q) : locals :=
  mkLocals dt_et_start 20 [] Inf None [].

(** Lines 60-111, entered once the first loop has left by [break]. *)
Definition after_first_crossing (pha_el : list Q) (soi : Q) (n : nat)
           (l1 : locals) (tr1 : list event) : run :=
  match soi_crossings l1 with
  | [] => mkRun (inl IndexError) tr1
  | t0 :: _ =>
    let pha_vec_entry := conics pha_el t0 in
    let pha_el_wrt_earth := oscelt pha_vec_entry t0 GM_EARTH in
    let l2 := set_step (set_dt_et l1 t0) 1 in
    let '(_, l3, tr2) := closest_approach_scan pha_el_wrt_earth n l2 in
    let '(fl, l4, tr3) := second_crossing_scan pha_el_wrt_earth soi n l3 in
    match fl with
    | Raise e => mkRun (inl e) (tr1 ++ tr2 ++ tr3)
    | _ => mkRun (inr (soi_crossings l4, min_et l4, min_distance l4))
                 (tr1 ++ tr2 ++ tr3)
    end
  end.

(** [range(max_iter)] has [Z.to_nat max_iter] elements. *)
Definition calculate_crossings (pha_el : list Q) (dt_et_start soi : Q)
           (max_iter : Z) : run :=
  let n := Z.to_nat max_iter in
  match first_crossing_scan pha_el soi n (initial_locals dt_et_start) with
  | (Continue, _, tr1) =>
    mkRun (inl (RuntimeError "First SOI crossing not found")) tr1
  | (Raise e, _, tr1) => mkRun (inl e) tr1
  | (Break, l1, tr1) => after_first_crossing pha_el soi n l1 tr1
  end.

End Ephemeris.

(** ** A small concrete ephemeris

    Motion along the x axis, so that every norm is rational.  It is used
    to run [calculate_crossings] on concrete inputs. *)
Module Toy.

Definition coord (v : list Q) (i : nat) : Q := nth i v 0.

(** Elements [x0; v; c]: position [x0 + v t + c t^2] on the x axis. *)
Definition conics (el : list Q) (t : Q) : list Q :=
  [Qred (coord el 0 + coord el 1 * t + coord el 2 * t * t); 0; 0;
   Qred (coord el 1 + 2 * coord el 2 * t); 0; 0].

(** The Earth rests at [earth_x] on the x axis; light time 0. *)
Definition spkgeo (earth_x : Q) (target : Z) (t : Q) (frame : string)
           (observer : Z) : list Q * Q :=
  ([earth_x; 0; 0; 0; 0; 0], 0).

(** The rectilinear elements through [state] at [t]. *)
Definition oscelt (state : list Q) (t mu : Q) : list Q :=
  [Qred (coord state 0 - coord state 3 * t); coord state 3].

(** Euclidean norm, exact whenever the norm is rational. *)
Definition vnorm (v : list Q) : Q :=
  let s := fold_right (fun x acc => x * x + acc) 0 v in
  Qred (Z.sqrt (Qnum s * Zpos (Qden s)) # Qden s).

Fixpoint bisect (fuel : nat) (f : Q -> Q) (a b : Q) : Q :=
  let m := Qred ((a + b) / 2) in
  match fuel with
  | O => m
  | S k =>
    if Qeq_bool (f m) 0 then m
    else if Qltb (f a * f m) 0 then bisect k f a m
    else bisect k f m b
  end.

(** A bracketing root finder: an end point that is a root is returned
    as it is, equal signs at both ends are an error. *)
Definition brentq (f : Q -> Q) (a b : Q) : option Q :=
  if Qeq_bool (f a) 0 then Some a
  else if Qeq_bool (f b) 0 then Some b
  else if Qltb 0 (f a * f b) then None
  else Some (bisect 6 f a b).

(** An [oscelt] that hands back prepared elements, whatever the state. *)
Definition oscelt_const (el : list Q) (state : list Q) (t mu : Q) : list Q :=
  el.

Definition distance_from_earth (earth_x : Q) :=
  distance_from_earth conics (spkgeo earth_x) vnorm.

Definition earth_dist_at := earth_dist_at conics vnorm.

Definition calculate_crossings (earth_x : Q) :=
  calculate_crossings conics (spkgeo earth_x) oscelt vnorm brentq.

End Toy.

(** ** Notions used in the statements *)

(** The parabola [a (t - t0)^2 + d0]. *)
Definition parabola (a t0 d0 t : Q) : Q := a * ((t - t0) * (t - t0)) + d0.

(** [dt_et] after [j] executions of [dt_et += step], from [t]. *)
Fixpoint scan_time (t s : Q) (j : nat) : Q :=
  match j with
  | O => t
  | S j' => scan_time (t + s) s j'
  end.

(** The evaluations of [f] at the first [k] scan times, in order. *)
Fixpoint scan_events (st : site) (f : Q -> Q) (t s : Q) (k : nat)
  : list event :=
  match k with
  | O => []
  | S k' => Eval st t (f t) :: scan_events st f (t + s) s k'
  end.

(** [i] is the first pass of a scan at which the test [P] succeeds. *)
Definition first_hit (P : Q -> bool) (t s : Q) (i : nat) : Prop :=
  P (scan_time t s i) = true /\
  forall j, (j < i)%nat -> P (scan_time t s j) = false.

Definition first_time (P : Q -> Prop) (t s : Q) (i : nat) : Prop :=
  P (scan_time t s i) /\
  forall j, (j < i)%nat -> ~ P (scan_time t s j).

(** The [j]-th sample of a scan of [f]. *)
Definition sample_at (f : Q -> Q) (t s : Q) (j : nat) : Q * Q :=
  (scan_time t s j, f (scan_time t s j)).

(** The last two samples taken before pass [k] (fewer at the start). *)
Definition window_before (f : Q -> Q) (t s : Q) (k : nat) : list (Q * Q) :=
  match k with
  | O => []
  | S O => [sample_at f t s 0]
  | S (S k') => [sample_at f t s k'; sample_at f t s (S k')]
  end.

(** The variables after [k] passes of a loop body, none of which left
    the loop. *)
Fixpoint inside_after (body : locals -> result) (k : nat) (l : locals)
  : option locals :=
  match k with
  | O => Some l
  | S k' =>
    match body l with
    | (Continue, l', _) => inside_after body k' l'
    | _ => None
    end
  end.

(** [R] holds between every two neighbours of [ts]. *)
Fixpoint chain (R : Q -> Q -> Prop) (ts : list Q) : Prop :=
  match ts with
  | t :: (t' :: _) as rest => R t t' /\ chain R rest
  | _ => True
  end.

(** The two crossing scans. *)
Inductive direction : Type :=
| Entering
| Exiting.

Definition crossed (dir : direction) (soi d : Q) : Prop :=
  match dir with
  | Entering => d <= soi
  | Exiting => soi <= d
  end.

Definition crossedb (dir : direction) (soi d : Q) : bool :=
  match dir with
  | Entering => Qle_bool d soi
  | Exiting => Qle_bool soi d
  end.

Definition scan_site (dir : direction) : site :=
  match dir with
  | Entering => FirstScan
  | Exiting => SecondScan
  end.

Definition report_site (dir : direction) : site :=
  match dir with
  | Entering => FirstReport
  | Exiting => SecondReport
  end.

(** The three times of a full result are strictly ordered. *)
Definition strictly_ordered (r : run) : Prop :=
  forall entry exit approach md,
    outcome r = inr ([entry; exit], Some approach, md) ->
    entry < approach /\ approach < exit.

(** The interior scan of the run confirmed a three-point minimum at [t]. *)
Definition confirmed_at (r : run) (t : Q) : Prop :=
  exists d, In (Eval VertexEval t d) (events r).

(** The evaluation made at the fitted vertex, if [e] is one. *)
Definition is_vertex_eval (e : event) : bool :=
  match e with
  | Eval VertexEval _ _ => true
  | _ => false
  end.

Section Notions.

Variable conics : list Q -> Q -> list Q.
Variable spkgeo : Z -> Q -> string -> Z -> list Q * Q.
Variable oscelt : list Q -> Q -> Q -> list Q.
Variable vnorm : list Q -> Q.
Variable brentq : (Q -> Q) -> Q -> Q -> option Q.

Definition crossing_scan (dir : direction)
  : list Q -> Q -> nat -> locals -> result :=
  match dir with
  | Entering => first_crossing_scan conics spkgeo vnorm brentq
  | Exiting => second_crossing_scan conics spkgeo vnorm brentq
  end.

(** A crossing scan left at pass [i]: the distance was evaluated at the
    scan times up to [t], the [i]-th; then the root finder was called for
    [distance - soi] on [[t - step, t]]; its root, if any, is appended to
    [soi_crossings] and the distance there evaluated for the message. *)
Definition scan_stop (dir : direction) (el : list Q) (soi : Q) (l : locals)
           (i : nat) : result :=
  let dist := fun u => distance_from_earth conics spkgeo vnorm u el in
  let t := scan_time (dt_et l) (step l) i in
  let seen := scan_events (scan_site dir) dist (dt_et l) (step l) (S i) in
  let root := brentq (fun u => dist u - soi) (t - step l) t in
  match root with
  | Some r =>
    (Break, set_soi_crossings (set_dt_et l t) (soi_crossings l ++ [r]),
     seen ++ [Refine (scan_site dir) (t - step l) t root;
              Eval (report_site dir) r (dist r)])
  | None =>
    (Raise ValueError, set_dt_et l t,
     seen ++ [Refine (scan_site dir) (t - step l) t root])
  end.

(** The first sample of the run is taken at [start] and is followed at
    once by the refinement over [[start - 20, start]]. *)
Definition first_sample_triggers (pha_el : list Q) (start soi : Q)
           (max_iter : Z) : Prop :=
  let dist := fun u => distance_from_earth conics spkgeo vnorm u pha_el in
  exists rest,
    events (calculate_crossings conics spkgeo oscelt vnorm brentq
                                pha_el start soi max_iter) =
    Eval FirstScan start (dist start)
    :: Refine FirstScan (start - 20) start
              (brentq (fun u => dist u - soi) (start - 20) start)
    :: rest.

End Notions.

(** ** fix_requir-ts.py

    The script reads [requirements.txt] as bytes, decodes them as UTF-8
    with the undecodable bytes left out, removes every NUL and carriage
    return, keeps the characters that are printable or a line feed or a
    tab, and writes the text to [requirements_clean.txt].  A text is a
    list of code points.  The decoder and [str.isprintable] belong to
    Python: they are variables.  The files are the argument and the
    result of [fix_requirements]. *)

Definition NUL : N := 0%N.
Definition TAB : N := 9%N.
Definition LF : N := 10%N.
Definition CR : N := 13%N.

(** [text.replace(c, "")] for a one-character [c]. *)
Definition remove_char (c : N) (text : list N) : list N :=
  filter (fun ch => negb (N.eqb ch c)) text.

Section Sanitizer.

(** [data.decode("utf-8", errors="ignore")]. *)
Variable decode_ignore : list Byte.byte -> list N.
(** [ch.isprintable()]. *)
Variable isprintable : N -> bool.

(** [ch.isprintable() or ch in "\n\t"] (line 12). *)
Definition kept (ch : N) : bool :=
  isprintable ch || (N.eqb ch LF || N.eqb ch TAB).

(** Lines 9 and 12. *)
Definition clean_text (text : list N) : list N :=
  let text := remove_char CR (remove_char NUL text) in
  filter kept text.

(** Lines 4-16: from the bytes of the input file to the text written. *)
Definition fix_requirements (data : list Byte.byte) : list N :=
  let text := decode_ignore data in
  clean_text text.

End Sanitizer.

(** A stand-in for [str.isprintable] that is right on ASCII. *)
Definition ascii_printable (ch : N) : bool :=
  (N.leb 32 ch && N.ltb ch 127)%N.

(** A stand-in for the decoder that is right on ASCII bytes; the other
    bytes are left out. *)
Definition decode_ascii (data : list Byte.byte) : list N :=
  filter (fun c => N.ltb c 128)
         (map (fun b => N.of_nat (Byte.to_nat b)) data).




(** The samples [k], [k + 1], [k + 2] of a scan of [f] have a strictly
    lowest middle one. *)
Definition strict_dip (f : Q -> Q) (t s : Q) (k : nat) : Prop :=
  f (scan_time t s (S k)) < f (scan_time t s k) /\
  f (scan_time t s (S k)) < f (scan_time t s (S (S k))).

(** * Properties *)

(** ** Comparisons and scan times *)

Lemma Qltb_lt (x y : Q) : Qltb x y = true <-> x < y.
Proof.
  unfold Qltb. rewrite negb_true_iff. split; intro H.
  - apply Qnot_le_lt. intro L. apply Qle_bool_iff in L. congruence.
  - destruct (Qle_bool y x) eqn:E; [|reflexivity].
    apply Qle_bool_iff in E. exfalso. apply (Qlt_not_le _ _ H E).
Qed.

Lemma Qltb_ge (x y : Q) : Qltb x y = false <-> y <= x.
Proof. unfold Qltb. rewrite negb_false_iff. apply Qle_bool_iff. Qed.

Lemma Qle_bool_false (x y : Q) : Qle_bool x y = false <-> ~ x <= y.
Proof.
  split; intro H.
  - intro L. apply Qle_bool_iff in L. congruence.
  - destruct (Qle_bool x y) eqn:E; [|reflexivity].
    apply Qle_bool_iff in E. contradiction.
Qed.

Lemma crossedb_true (dir : direction) (soi d : Q) :
  crossedb dir soi d = true <-> crossed dir soi d.
Proof. destruct dir; apply Qle_bool_iff. Qed.

Lemma crossedb_false (dir : direction) (soi d : Q) :
  crossedb dir soi d = false <-> ~ crossed dir soi d.
Proof. destruct dir; apply Qle_bool_false. Qed.

Lemma scan_time_S (t s : Q) (j : nat) :
  scan_time t s (S j) = scan_time t s j + s.
Proof.
  revert t; induction j as [|j IH]; intro t; [reflexivity|].
  change (scan_time (t + s) s (S j) = scan_time (t + s) s j + s). apply IH.
Qed.

Lemma scan_time_eq (t s : Q) (j : nat) :
  scan_time t s j == t + inject_Z (Z.of_nat j) * s.
Proof.
  induction j as [|j IH].
  - simpl. unfold inject_Z. ring.
  - rewrite scan_time_S, IH, Nat2Z.inj_succ. unfold Z.succ.
    rewrite inject_Z_plus. ring.
Qed.

Lemma scan_time_ge (t s : Q) (j : nat) : 0 <= s -> t <= scan_time t s j.
Proof.
  intro Hs. rewrite scan_time_eq.
  assert (0 <= inject_Z (Z.of_nat j)).
  { change 0 with (inject_Z 0). rewrite <- Zle_Qle. lia. }
  assert (0 <= inject_Z (Z.of_nat j) * s) by (apply Qmult_le_0_compat; assumption).
  lra.
Qed.

Lemma scan_time_mono (t s : Q) (j k : nat) :
  0 <= s -> (j <= k)%nat -> scan_time t s j <= scan_time t s k.
Proof.
  intros Hs Hjk. induction Hjk as [|k _ IH]; [apply Qle_refl|].
  rewrite scan_time_S. lra.
Qed.

Lemma first_hit_shift (P : Q -> bool) (t s : Q) (i : nat) :
  first_hit P t s (S i) -> first_hit P (t + s) s i /\ P t = false.
Proof.
  intros [H1 H2]. split; [split|].
  - exact H1.
  - intros j Hj. apply (H2 (S j)). lia.
  - apply (H2 O). lia.
Qed.

(** A scan of [n] passes either has a first pass at which its test
    succeeds, or its test fails at all of them. *)
Lemma first_hit_or_none (P : Q -> bool) (s : Q) (n : nat) : forall t,
  (exists i, (i < n)%nat /\ first_hit P t s i) \/
  (forall j, (j < n)%nat -> P (scan_time t s j) = false).
Proof.
  induction n as [|n IH]; intro t.
  - right. intros j Hj. lia.
  - destruct (P t) eqn:E.
    + left. exists O. split; [lia|]. split; [exact E|]. intros j Hj; lia.
    + destruct (IH (t + s)) as [[i [Hi [H1 H2]]]|H].
      * left. exists (S i). split; [lia|]. split; [exact H1|].
        intros [|j] Hj; [exact E|]. apply H2. lia.
      * right. intros [|j] Hj; [exact E|]. apply H. lia.
Qed.

Lemma first_hit_unique (P : Q -> bool) (t s : Q) (i j : nat) :
  first_hit P t s i -> first_hit P t s j -> i = j.
Proof.
  intros [Hi Hi'] [Hj Hj'].
  destruct (Nat.lt_trichotomy i j) as [L|[E|L]]; [|exact E|].
  - rewrite (Hj' i L) in Hi. discriminate.
  - rewrite (Hi' j L) in Hj. discriminate.
Qed.

Lemma in_scan_events (st st' : site) (f : Q -> Q) (k : nat) :
  forall t s u d,
    In (Eval st' u d) (scan_events st f t s k) ->
    st' = st /\ exists j, (j < k)%nat /\ u = scan_time t s j /\ d = f u.
Proof.
  induction k as [|k IH]; intros t s u d H; [destruct H|].
  destruct H as [H|H].
  - injection H as <- <- <-. split; [reflexivity|]. exists O.
    split; [lia|]. split; reflexivity.
  - destruct (IH _ _ _ _ H) as [E [j [Hj [Hu Hd]]]]. split; [exact E|].
    exists (S j). split; [lia|]. split; assumption.
Qed.

Lemma scan_events_in (st : site) (f : Q -> Q) (k : nat) :
  forall t s j, (j < k)%nat ->
    In (Eval st (scan_time t s j) (f (scan_time t s j)))
       (scan_events st f t s k).
Proof.
  induction k as [|k IH]; intros t s j Hj; [lia|].
  destruct j as [|j]; [left; reflexivity|].
  right. apply (IH (t + s) s j). lia.
Qed.

(** ** The quadratic fit *)

Lemma polyfit2_parabola (a t0 d0 m t1 t2 t3 : Q) :
  ~ t1 == t2 -> ~ t1 == t3 -> ~ t2 == t3 ->
  let '(a', b', _) :=
      polyfit2 (t1 - m) (parabola a t0 d0 t1) (t2 - m) (parabola a t0 d0 t2)
               (t3 - m) (parabola a t0 d0 t3) in
  a' == a /\ b' == 2 * a * (m - t0).
Proof.
  intros H12 H13 H23. unfold polyfit2, parabola.
  assert (~ t2 - t1 == 0) by (intro; apply H12; lra).
  assert (~ t3 - t1 == 0) by (intro; apply H13; lra).
  assert (~ t3 - t2 == 0) by (intro; apply H23; lra).
  match goal with
  | |- ?lhs == a /\ _ => assert (Ha : lhs == a)
  end.
  { field. repeat split; intro; lra. }
  split; [exact Ha|]. rewrite Ha. field. intro; lra.
Qed.

(** C5.  For the parabola [d(t) = a (t - t0)^2 + d0] with [a > 0] and
    three samples of it taken at pairwise distinct times,
    [quadratic_approximation] returns the vertex time [t0] (in exact
    arithmetic), whatever the size of the times. *)
Theorem quadratic_approximation_recovers_vertex (a t0 d0 t1 t2 t3 : Q) :
  0 < a -> ~ t1 == t2 -> ~ t1 == t3 -> ~ t2 == t3 ->
  quadratic_approximation t1 (parabola a t0 d0 t1)
                          t2 (parabola a t0 d0 t2)
                          t3 (parabola a t0 d0 t3) == t0.
Proof.
  intros Ha H12 H13 H23. unfold quadratic_approximation.
  pose proof (polyfit2_parabola a t0 d0 (mean3 t1 t2 t3) t1 t2 t3
                                H12 H13 H23) as P.
  destruct (polyfit2 _ _ _ _ _ _) as [[a' b'] c'].
  destruct P as [Pa Pb]. rewrite Pa, Pb. field. intro; lra.
Qed.

Lemma quadratic_approximation_recovers_vertex_witness :
  quadratic_approximation 812345678 (parabola (3 # 7) 812345701 5 812345678)
                          812345700 (parabola (3 # 7) 812345701 5 812345700)
                          812345790 (parabola (3 # 7) 812345701 5 812345790)
  == 812345701.
Proof.
  apply (quadratic_approximation_recovers_vertex (3 # 7) 812345701 5);
    [reflexivity | | | ]; intro H; vm_compute in H; discriminate H.
Defined.

Lemma quadratic_approximation_even (t1 d1 d2 d3 h : Q) :
  0 < h -> d2 < d1 -> d2 < d3 ->
  quadratic_approximation t1 d1 (t1 + h) d2 (t1 + h + h) d3 ==
  t1 + h - h * (d3 - d1) / (2 * (d1 - 2 * d2 + d3)).
Proof.
  intros Hh H1 H3. unfold quadratic_approximation, polyfit2, mean3.
  assert (HD : 0 < h * (d1 - 2 * d2 + d3)).
  { apply Qmult_lt_0_compat; lra. }
  field. repeat split; intro E; lra.
Qed.

(** With evenly spaced times and a strictly lowest middle sample the
    fitted vertex lies strictly inside the window. *)
Lemma quadratic_approximation_in_window (t1 d1 d2 d3 h : Q) :
  0 < h -> d2 < d1 -> d2 < d3 ->
  t1 < quadratic_approximation t1 d1 (t1 + h) d2 (t1 + h + h) d3 /\
  quadratic_approximation t1 d1 (t1 + h) d2 (t1 + h + h) d3 < t1 + h + h.
Proof.
  intros Hh H1 H3. rewrite (quadratic_approximation_even t1 d1 d2 d3 h Hh H1 H3).
  assert (HD : 0 < 2 * (d1 - 2 * d2 + d3)) by lra.
  assert (Hlt : h * (d3 - d1) / (2 * (d1 - 2 * d2 + d3)) < h).
  { apply Qlt_shift_div_r; [exact HD|]. nra. }
  assert (Hgt : - h < h * (d3 - d1) / (2 * (d1 - 2 * d2 + d3))).
  { apply Qlt_shift_div_l; [exact HD|]. nra. }
  split; lra.
Qed.

(** ** The loops of [calculate_crossings] *)

Section Scans.

Variable conics : list Q -> Q -> list Q.
Variable spkgeo : Z -> Q -> string -> Z -> list Q * Q.
Variable oscelt : list Q -> Q -> Q -> list Q.
Variable vnorm : list Q -> Q.
Variable brentq : (Q -> Q) -> Q -> Q -> option Q.

(** Short names for the functions of the model on this ephemeris. *)
Local Abbreviation dfe := (distance_from_earth conics spkgeo vnorm).
Local Abbreviation eda := (earth_dist_at conics vnorm).
Local Abbreviation scan := (crossing_scan conics spkgeo vnorm brentq).
Local Abbreviation stop := (scan_stop conics spkgeo vnorm brentq).
Local Abbreviation body := (closest_body conics vnorm).
Local Abbreviation scan2 := (closest_approach_scan conics vnorm).
Local Abbreviation calc :=
  (calculate_crossings conics spkgeo oscelt vnorm brentq).

(** *** The two crossing scans *)

Lemma crossing_scan_hit (dir : direction) (el : list Q) (soi : Q) (i : nat) :
  forall n l,
    (i < n)%nat ->
    first_hit (fun t => crossedb dir soi (dfe t el)) (dt_et l) (step l) i ->
    scan dir el soi n l = stop dir el soi l i.
Proof.
  induction i as [|i IH]; intros n l Hn Hhit.
  - destruct n as [|n]; [lia|]. destruct Hhit as [H _].
    destruct l as [t s c md me b]. unfold scan_stop.
    destruct dir; simpl in *; rewrite H; destruct (brentq _ _ _); reflexivity.
  - destruct n as [|n]; [lia|].
    apply first_hit_shift in Hhit. destruct Hhit as [Hhit H0].
    destruct l as [t s c md me b].
    assert (Hn' : (i < n)%nat) by lia.
    pose proof (IH n (mkLocals (t + s) s c md me b) Hn' Hhit) as R.
    unfold scan_stop in *.
    destruct dir; simpl in *; unfold set_soi_crossings, set_dt_et in *;
      simpl in *; rewrite H0, R; destruct (brentq _ _ _); reflexivity.
Qed.

Lemma crossing_scan_miss (dir : direction) (el : list Q) (soi : Q) (n : nat) :
  forall l,
    (forall j, (j < n)%nat ->
               crossedb dir soi (dfe (scan_time (dt_et l) (step l) j) el)
               = false) ->
    scan dir el soi n l =
    (Continue, set_dt_et l (scan_time (dt_et l) (step l) n),
     scan_events (scan_site dir) (fun u => dfe u el) (dt_et l) (step l) n).
Proof.
  induction n as [|n IH]; intros l H.
  - destruct l; destruct dir; reflexivity.
  - pose proof (H O ltac:(lia)) as H0. destruct l as [t s c md me b].
    assert (R := IH (mkLocals (t + s) s c md me b)).
    destruct dir; simpl in *; unfold set_dt_et in *; simpl in *;
      rewrite H0, R; try reflexivity;
      intros j Hj; apply (H (S j)); lia.
Qed.

(** C6.  A crossing scan ([Entering]: the first loop, [Exiting]: the last
    one) whose test [distance <= soi] (resp. [soi <= distance]) holds for
    the first time at its [i]-th scan time [t], within the budget, leaves
    the loop there: it has evaluated the distance at the scan times up to
    [t] and no further, and refines with the root finder applied to
    [distance - soi] on [[t - step, t]]. *)
Theorem crossing_scan_stops_at_first_crossing
        (dir : direction) (el : list Q) (soi : Q) (n : nat) (l : locals)
        (i : nat) :
  (i < n)%nat ->
  first_time (fun t => crossed dir soi (dfe t el)) (dt_et l) (step l) i ->
  scan dir el soi n l = stop dir el soi l i.
Proof.
  intros Hi [H1 H2]. apply crossing_scan_hit; [exact Hi|]. split.
  - apply crossedb_true. exact H1.
  - intros j Hj. apply crossedb_false. apply H2. exact Hj.
Qed.

(** C9.  With [max_iter = 0] the call raises "First SOI crossing not
    found" and nothing has been evaluated: no distance, no refinement.
    This holds for every ephemeris, so also when the distance at the
    start is within the threshold. *)
Theorem no_budget_raises_before_any_evaluation
        (pha_el : list Q) (start soi : Q) :
  calculate_crossings conics spkgeo oscelt vnorm brentq pha_el start soi 0 =
  mkRun (inl (RuntimeError "First SOI crossing not found")) [].
Proof. reflexivity. Qed.

(** The first scan does raise when it runs out of passes. *)
Lemma first_scan_exhaustion_raises
      (pha_el : list Q) (start soi : Q) (max_iter : Z) :
  (forall j, (j < Z.to_nat max_iter)%nat ->
             ~ dfe (scan_time start 20 j) pha_el <= soi) ->
  outcome (calc pha_el start soi max_iter) =
  inl (RuntimeError "First SOI crossing not found").
Proof.
  intro H. unfold calculate_crossings.
  pose proof (crossing_scan_miss Entering pha_el soi (Z.to_nat max_iter)
                                 (initial_locals start)) as M.
  unfold crossing_scan in M. rewrite M; [reflexivity|].
  intros j Hj. apply crossedb_false. apply H. exact Hj.
Qed.

(** C7, amended.  With a budget of at least one pass, a start distance
    below the threshold makes the first loop stop at its first sample:
    the distance is evaluated at [start] and the refinement over
    [[start - 20, start]] follows at once. *)
Theorem first_sample_triggers_within_budget
        (pha_el : list Q) (start soi : Q) (max_iter : Z) :
  (0 < max_iter)%Z ->
  dfe start pha_el < soi ->
  first_sample_triggers conics spkgeo oscelt vnorm brentq
                        pha_el start soi max_iter.
Proof.
  intros Hm Hd. unfold first_sample_triggers, calculate_crossings.
  destruct (Z.to_nat max_iter) as [|n] eqn:En; [lia|].
  assert (Hb : Qle_bool (dfe start pha_el) soi = true).
  { apply Qle_bool_iff. apply Qlt_le_weak. exact Hd. }
  cbn [first_crossing_scan initial_locals dt_et step]. rewrite Hb.
  destruct (brentq _ _ _) as [r|].
  - unfold after_first_crossing.
    cbn [initial_locals set_soi_crossings soi_crossings app].
    destruct (scan2 _ _ _) as [[fl2 l3] tr2].
    destruct (second_crossing_scan conics spkgeo vnorm brentq _ _ _ _)
      as [[fl3 l4] tr3].
    destruct fl3; eexists; reflexivity.
  - eexists. reflexivity.
Qed.

Lemma crossing_scan_cases (dir : direction) (el : list Q) (soi : Q) (n : nat)
      (l : locals) :
  (exists i, (i < n)%nat /\
             first_hit (fun t => crossedb dir soi (dfe t el))
                       (dt_et l) (step l) i /\
             scan dir el soi n l = stop dir el soi l i)
  \/
  ((forall j, (j < n)%nat ->
              crossedb dir soi (dfe (scan_time (dt_et l) (step l) j) el)
              = false) /\
   scan dir el soi n l =
   (Continue, set_dt_et l (scan_time (dt_et l) (step l) n),
    scan_events (scan_site dir) (fun u => dfe u el) (dt_et l) (step l) n)).
Proof.
  destruct (first_hit_or_none (fun t => crossedb dir soi (dfe t el))
                              (step l) n (dt_et l)) as [[i [Hi Hh]]|Hm].
  - left. exists i. split; [exact Hi|]. split; [exact Hh|].
    apply crossing_scan_hit; assumption.
  - right. split; [exact Hm|]. apply crossing_scan_miss. exact Hm.
Qed.

(** A crossing scan leaves the running minimum alone and evaluates only
    at its own two sites. *)
Lemma crossing_scan_keeps (dir : direction) (el : list Q) (soi : Q) (n : nat)
      (l l' : locals) (fl : flow) (tr : list event) :
  scan dir el soi n l = (fl, l', tr) ->
  min_et l' = min_et l /\ min_distance l' = min_distance l /\
  forall st u d, In (Eval st u d) tr ->
                 st = scan_site dir \/ st = report_site dir.
Proof.
  intro H.
  destruct (crossing_scan_cases dir el soi n l) as [[i [_ [_ E]]]|[_ E]];
    rewrite E in H; clear E.
  - unfold scan_stop in H.
    assert (Hs : forall st u d,
               In (Eval st u d)
                  (scan_events (scan_site dir) (fun u => dfe u el)
                               (dt_et l) (step l) (S i)) ->
               st = scan_site dir).
    { intros st u d Hin. apply in_scan_events in Hin. apply Hin. }
    revert H Hs.
    generalize (scan_events (scan_site dir) (fun u => dfe u el)
                            (dt_et l) (step l) (S i)).
    intros seen H Hs.
    destruct (brentq _ _ _) as [r|];
      injection H as <- <- <-; (split; [reflexivity|]);
      (split; [reflexivity|]); intros st u d Hin;
      apply in_app_or in Hin; destruct Hin as [Hin|Hin].
    + left. apply (Hs _ _ _ Hin).
    + destruct Hin as [Hin|[Hin|[]]]; [discriminate|].
      injection Hin as <- _ _. right. reflexivity.
    + left. apply (Hs _ _ _ Hin).
    + destruct Hin as [Hin|[]]. discriminate.
  - injection H as <- <- <-. split; [reflexivity|]. split; [reflexivity|].
    intros st u d Hin. left. apply in_scan_events in Hin. apply Hin.
Qed.

(** *** The scan inside the SOI *)

(** What one pass of the body does: it either goes on, having slid the
    window and folded the sample into the minimum, or it has found the
    middle of a full window strictly lowest and leaves. *)
Lemma closest_body_cases (el : list Q) (l : locals) :
  let d := eda el (dt_et l) in
  (exists l',
      body el l = (Continue, l', [Eval InsideScan (dt_et l) d]) /\
      dt_et l' = dt_et l + step l /\ step l' = step l /\
      soi_crossings l' = soi_crossings l /\
      bracket l' = (if (List.length (bracket l) =? 2)%nat
                    then tl (bracket l ++ [(dt_et l, d)])
                    else bracket l ++ [(dt_et l, d)]) /\
      (min_distance l', min_et l') =
      (if dist_ltb d (min_distance l) then (Finite d, Some (dt_et l))
       else (min_distance l, min_et l)))
  \/
  (exists t1 d1 t2 d2,
      bracket l = [(t1, d1); (t2, d2)] /\
      d2 < d1 /\ d2 < d /\
      let t_min := quadratic_approximation t1 d1 t2 d2 (dt_et l) d in
      body el l =
      (Break,
       mkLocals (t_min + 10) 10 (soi_crossings l)
                (Finite (eda el t_min)) (Some t_min)
                [(t1, d1); (t2, d2); (dt_et l, d)],
       [Eval InsideScan (dt_et l) d; Eval VertexEval t_min (eda el t_min)])).
Proof.
  destruct l as [t s c md me b]. cbn zeta.
  destruct b as [|[t1 d1] [|[t2 d2] [|p3 b]]].
  - left. eexists. split; [reflexivity|]. unfold fold_and_advance. simpl.
    destruct (dist_ltb _ md); simpl; repeat split; reflexivity.
  - left. eexists. split; [reflexivity|]. unfold fold_and_advance. simpl.
    destruct (dist_ltb _ md); simpl; repeat split; reflexivity.
  - destruct (Qltb d2 d1 && Qltb d2 (eda el t)) eqn:E.
    + right. exists t1, d1, t2, d2. split; [reflexivity|].
      apply andb_true_iff in E as E'. destruct E' as [E1 E2].
      apply Qltb_lt in E1, E2. split; [exact E1|]. split; [exact E2|].
      unfold closest_body. simpl. simpl in E. rewrite E. reflexivity.
    + left. unfold closest_body. simpl. simpl in E. rewrite E.
      eexists. split; [reflexivity|]. unfold fold_and_advance. simpl.
      destruct (dist_ltb _ md); simpl; repeat split; reflexivity.
  - left. unfold closest_body. simpl. destruct p3 as [t3 d3].
    destruct b as [|p4 b]; simpl;
      (eexists; split; [reflexivity|]; unfold fold_and_advance; simpl;
       destruct (dist_ltb _ md); simpl; repeat split; reflexivity).
Qed.

Lemma inside_after_snoc (f : locals -> result) (k : nat) : forall l,
  inside_after f (S k) l =
  match inside_after f k l with
  | Some lk => match f lk with
               | (Continue, l', _) => Some l'
               | _ => None
               end
  | None => None
  end.
Proof.
  induction k as [|k IH]; intro l.
  - simpl. destruct (f l) as [[[| |e] l'] tr]; reflexivity.
  - change (inside_after f (S (S k)) l)
      with (match f l with
            | (Continue, l', _) => inside_after f (S k) l'
            | _ => None
            end).
    simpl (inside_after f (S k) l).
    destruct (f l) as [[[| |e] l'] tr]; try reflexivity. apply IH.
Qed.

Lemma inside_after_step (el : list Q) (k : nat) (l0 lk' : locals) :
  inside_after (body el) (S k) l0 = Some lk' ->
  exists lk,
    inside_after (body el) k l0 = Some lk /\
    body el lk =
    (Continue, lk', [Eval InsideScan (dt_et lk) (eda el (dt_et lk))]).
Proof.
  rewrite inside_after_snoc.
  destruct (inside_after (body el) k l0) as [lk|]; [|discriminate].
  intro H. exists lk. split; [reflexivity|].
  destruct (closest_body_cases el lk)
    as [[l' [E _]]|[t1 [d1 [t2 [d2 [_ [_ [_ E]]]]]]]];
    cbn zeta in E; rewrite E in H |- *.
  - injection H as ->. reflexivity.
  - discriminate.
Qed.

(** The variables at the head of pass [k]. *)
Lemma inside_inv (el : list Q) (k : nat) : forall l0 lk,
  bracket l0 = [] ->
  inside_after (body el) k l0 = Some lk ->
  dt_et lk = scan_time (dt_et l0) (step l0) k /\
  step lk = step l0 /\
  soi_crossings lk = soi_crossings l0 /\
  bracket lk = window_before (eda el) (dt_et l0) (step l0) k.
Proof.
  induction k as [|k IH]; intros l0 lk Hb H.
  - injection H as <-. repeat split; try reflexivity. exact Hb.
  - apply inside_after_step in H. destruct H as [lp [Hp Hbody]].
    destruct (IH l0 lp Hb Hp) as [It [Is [Ic Iw]]].
    destruct (closest_body_cases el lp)
      as [[l' [E [Et [Es [Ec [Ew _]]]]]]|[t1 [d1 [t2 [d2 [_ [_ [_ E]]]]]]]];
      cbn zeta in E; rewrite E in Hbody; [|discriminate].
    injection Hbody as <-.
    rewrite Et, Es, Ec, Ew, Is, Ic, Iw, It. repeat split.
    + symmetry. apply scan_time_S.
    + destruct k as [|[|k]]; reflexivity.
Qed.

(** After [k + 1] passes the running minimum is the first smallest of
    the samples taken. *)
Lemma inside_min (el : list Q) (k : nat) : forall l0 lk,
  bracket l0 = [] -> min_distance l0 = Inf ->
  inside_after (body el) (S k) l0 = Some lk ->
  exists j, (j <= k)%nat /\
    min_et lk = Some (scan_time (dt_et l0) (step l0) j) /\
    min_distance lk = Finite (eda el (scan_time (dt_et l0) (step l0) j)) /\
    forall j', (j' <= k)%nat ->
      eda el (scan_time (dt_et l0) (step l0) j) <=
      eda el (scan_time (dt_et l0) (step l0) j').
Proof.
  induction k as [|k IH]; intros l0 lk Hb Hm H;
    apply inside_after_step in H; destruct H as [lp [Hp Hbody]];
    destruct (inside_inv el _ l0 lp Hb Hp) as [It _];
    (destruct (closest_body_cases el lp)
      as [[l' [E [_ [_ [_ [_ Emin]]]]]]|[t1 [d1 [t2 [d2 [_ [_ [_ E]]]]]]]];
     cbn zeta in E; rewrite E in Hbody; [|discriminate]);
    injection Hbody as <-; rewrite It in Emin.
  - injection Hp as <-. rewrite Hm in Emin. simpl in Emin.
    injection Emin as -> ->. exists O. repeat split; try reflexivity; try lia.
    intros j' Hj. assert (j' = O) as -> by lia. apply Qle_refl.
  - destruct (IH l0 lp Hb Hm Hp) as [j [Hj [Iet [Imd Ile]]]].
    rewrite Imd, Iet in Emin. simpl in Emin.
    destruct (Qltb _ _) eqn:C; injection Emin as -> ->.
    + apply Qltb_lt in C. exists (S k).
      repeat split; try reflexivity; try lia.
      intros j' Hj'. destruct (Nat.eq_dec j' (S k)) as [->|N];
        [apply Qle_refl|].
      apply Qlt_le_weak. eapply Qlt_le_trans; [exact C|]. apply Ile. lia.
    + apply Qltb_ge in C. exists j. repeat split; try reflexivity; try lia.
      intros j' Hj'. destruct (Nat.eq_dec j' (S k)) as [->|N]; [exact C|].
      apply Ile. lia.
Qed.

(** The loop either runs all its passes, or leaves at some pass [k]. *)
Lemma closest_approach_scan_cases (el : list Q) (n : nat) : forall l,
  (exists ln,
      inside_after (body el) n l = Some ln /\
      scan2 el n l =
      (Continue, ln, scan_events InsideScan (eda el) (dt_et l) (step l) n))
  \/
  (exists k lk l' tr,
      (k < n)%nat /\ inside_after (body el) k l = Some lk /\
      body el lk = (Break, l', tr) /\
      scan2 el n l =
      (Break, l',
       scan_events InsideScan (eda el) (dt_et l) (step l) k ++ tr)).
Proof.
  induction n as [|n IH]; intro l.
  - left. exists l. split; reflexivity.
  - destruct (closest_body_cases el l)
      as [[l' [E [Et [Es _]]]]|[t1 [d1 [t2 [d2 [_ [_ [_ E]]]]]]]];
      cbn zeta in E.
    + destruct (IH l') as [[ln [Ha Hs]]|[k [lk [l'' [tr [Hk [Ha [Hb Hs]]]]]]]].
      * left. exists ln. simpl. rewrite E. split; [exact Ha|].
        rewrite Hs, Et, Es. reflexivity.
      * right. exists (S k), lk, l'', tr. simpl. rewrite E.
        split; [lia|]. split; [exact Ha|]. split; [exact Hb|].
        rewrite Hs, Et, Es. reflexivity.
    + right. eexists O, l, _, _. split; [lia|]. split; [reflexivity|].
      split; [exact E|]. simpl. rewrite E. reflexivity.
Qed.

(** *** The whole call *)

(** What lies behind a returned result: the first scan stopped at some
    pass [i] and was refined to [r]; the scan inside the SOI ran from [r]
    with step 1 on the elements derived at [r]; the last scan followed. *)
Lemma calculate_crossings_returns
      (pha_el : list Q) (start soi : Q) (max_iter : Z)
      (crs : list Q) (met : option Q) (md : dist) :
  outcome (calc pha_el start soi max_iter) = inr (crs, met, md) ->
  exists i r,
    (i < Z.to_nat max_iter)%nat /\
    brentq (fun u => dfe u pha_el - soi)
           (scan_time start 20 i - 20) (scan_time start 20 i) = Some r /\
    exists fl2 l3 tr2 fl3 l4 tr3,
      scan2 (oscelt (conics pha_el r) r GM_EARTH) (Z.to_nat max_iter)
            (mkLocals r 1 [r] Inf None []) = (fl2, l3, tr2) /\
      scan Exiting (oscelt (conics pha_el r) r GM_EARTH) soi
           (Z.to_nat max_iter) l3 = (fl3, l4, tr3) /\
      crs = soi_crossings l4 /\ met = min_et l4 /\ md = min_distance l4 /\
      events (calc pha_el start soi max_iter) =
      (scan_events FirstScan (fun u => dfe u pha_el) start 20 (S i) ++
       [Refine FirstScan (scan_time start 20 i - 20) (scan_time start 20 i)
               (Some r);
        Eval FirstReport r (dfe r pha_el)]) ++ tr2 ++ tr3.
Proof.
  unfold calculate_crossings.
  destruct (crossing_scan_cases Entering pha_el soi (Z.to_nat max_iter)
                                (initial_locals start))
    as [[i [Hi [_ E]]]|[_ E]];
    unfold crossing_scan in E; rewrite E; clear E; [|discriminate].
  unfold scan_stop. cbn [initial_locals dt_et step scan_site report_site].
  destruct (brentq _ _ _) as [r|] eqn:Er; [|discriminate].
  unfold after_first_crossing.
  cbn [initial_locals set_dt_et set_step set_soi_crossings soi_crossings app
       dt_et step min_distance min_et bracket].
  destruct (scan2 _ _ _) as [[fl2 l3] tr2] eqn:E2.
  destruct (second_crossing_scan conics spkgeo vnorm brentq _ _ _ _)
    as [[fl3 l4] tr3] eqn:E3.
  intro H. exists i, r. split; [exact Hi|]. split; [exact Er|].
  exists fl2, l3, tr2, fl3, l4, tr3. split; [exact E2|]. split; [exact E3|].
  destruct fl3; cbn in H |- *; try discriminate; injection H as <- <- <-;
    repeat split.
Qed.

(** No evaluation of the first scan is made at the site [st] unless
    [st] is one of its two sites. *)
Lemma first_scan_sites (f : Q -> Q) (start s : Q) (k : nat) (a b r : Q)
      (st : site) (u d : Q) :
  In (Eval st u d)
     (scan_events FirstScan f start s k ++
      [Refine FirstScan a b (Some r); Eval FirstReport r (f r)]) ->
  st = FirstScan \/ st = FirstReport.
Proof.
  intro H. apply in_app_or in H. destruct H as [H|H].
  - left. apply in_scan_events in H. apply H.
  - destruct H as [H|[H|[]]]; [discriminate|].
    injection H as <- _ _. right. reflexivity.
Qed.

(** C8.  At the head of every pass of the scan inside the SOI that is
    reached without leaving the loop (so with the step unchanged), the
    window holds at most 2 samples, and once the sample of the pass is
    appended at most 3; their times are strictly increasing and each is
    the previous one plus the step; and a pass that goes on with a full
    window of 3 drops its first, oldest, sample and nothing else. *)
Theorem sliding_window_is_a_queue_of_three
        (el : list Q) (l0 : locals) (k : nat) (lk : locals) :
  bracket l0 = [] ->
  0 < step l0 ->
  inside_after (body el) k l0 = Some lk ->
  let w := bracket lk ++ [(dt_et lk, eda el (dt_et lk))] in
  step lk = step l0 /\
  (List.length (bracket lk) <= 2)%nat /\
  (List.length w <= 3)%nat /\
  chain Qlt (map fst w) /\
  chain (fun t t' => t' = t + step l0) (map fst w) /\
  forall l' tr,
    body el lk = (Continue, l', tr) ->
    bracket l' = if (List.length w =? 3)%nat then tl w else w.
Proof.
  intros Hb Hs H. cbn zeta.
  destruct (inside_inv el k l0 lk Hb H) as [It [Is [_ Iw]]].
  split; [exact Is|].
  assert (Hlen : List.length (bracket lk) =
                 match k with O => O | S O => 1%nat | _ => 2%nat end).
  { rewrite Iw. destruct k as [|[|k]]; reflexivity. }
  split; [rewrite Hlen; destruct k as [|[|k]]; lia|].
  split; [rewrite length_app, Hlen; destruct k as [|[|k]]; simpl; lia|].
  split; [|split].
  - rewrite Iw, It. destruct k as [|[|k]];
      cbn [window_before sample_at app map fst chain]; repeat split;
      rewrite !scan_time_S; lra.
  - rewrite Iw, It. destruct k as [|[|k]];
      cbn [window_before sample_at app map fst chain]; repeat split;
      apply scan_time_S.
  - intros l' tr Hbody.
    destruct (closest_body_cases el lk)
      as [[l'' [E [_ [_ [_ [Ew _]]]]]]|[t1 [d1 [t2 [d2 [_ [_ [_ E]]]]]]]];
      cbn zeta in E; rewrite E in Hbody; [|discriminate].
    injection Hbody as <- _. rewrite Ew, length_app, Hlen. simpl.
    destruct k as [|[|k]]; reflexivity.
Qed.

(** The two ways in which a returned result came about: the scan inside
    the SOI ran out of passes, or it left at a pass [k] on a full window
    with a strictly lowest middle sample. *)
Lemma returned_run_shape
      (pha_el : list Q) (start soi : Q) (max_iter : Z)
      (crs : list Q) (met : option Q) (md : dist) :
  outcome (calc pha_el start soi max_iter) = inr (crs, met, md) ->
  exists r tr1 tr2 tr3 l3 l4 fl3,
    let n := Z.to_nat max_iter in
    let el := oscelt (conics pha_el r) r GM_EARTH in
    let l2 := mkLocals r 1 [r] Inf None [] in
    events (calc pha_el start soi max_iter) = tr1 ++ tr2 ++ tr3 /\
    (forall st u d, In (Eval st u d) tr1 ->
                    st = FirstScan \/ st = FirstReport) /\
    (forall st u d, In (Eval st u d) tr3 ->
                    st = SecondScan \/ st = SecondReport) /\
    scan Exiting el soi n l3 = (fl3, l4, tr3) /\
    crs = soi_crossings l4 /\ met = min_et l3 /\ md = min_distance l3 /\
    ((inside_after (body el) n l2 = Some l3 /\ (0 < n)%nat /\
      tr2 = scan_events InsideScan (eda el) r 1 n)
     \/
     (exists k lk t1 d1 t2 d2,
         (k < n)%nat /\ inside_after (body el) k l2 = Some lk /\
         bracket lk = [(t1, d1); (t2, d2)] /\
         d2 < d1 /\ d2 < eda el (dt_et lk) /\
         let d3 := eda el (dt_et lk) in
         let t_min := quadratic_approximation t1 d1 t2 d2 (dt_et lk) d3 in
         l3 = mkLocals (t_min + 10) 10 (soi_crossings lk)
                       (Finite (eda el t_min)) (Some t_min)
                       [(t1, d1); (t2, d2); (dt_et lk, d3)] /\
         tr2 = scan_events InsideScan (eda el) r 1 k ++
               [Eval InsideScan (dt_et lk) d3;
                Eval VertexEval t_min (eda el t_min)] /\
         body el lk = (Break, l3, [Eval InsideScan (dt_et lk) d3;
                                   Eval VertexEval t_min (eda el t_min)]))).
Proof.
  intro H. apply calculate_crossings_returns in H.
  destruct H as [i [r [Hi [_ [fl2 [l3 [tr2 [fl3 [l4 [tr3 H]]]]]]]]]].
  destruct H as [E2 [E3 [Hc [Ht [Hd Hev]]]]].
  destruct (crossing_scan_keeps _ _ _ _ _ _ _ _ E3) as [Kt [Kd Ks]].
  eexists r, _, tr2, tr3, l3, l4, fl3. cbn zeta.
  split; [exact Hev|]. split; [apply first_scan_sites|].
  split; [exact Ks|]. split; [exact E3|]. split; [exact Hc|].
  split; [congruence|]. split; [congruence|].
  destruct (closest_approach_scan_cases
              (oscelt (conics pha_el r) r GM_EARTH) (Z.to_nat max_iter)
              (mkLocals r 1 [r] Inf None []))
    as [[ln [Ha Es]]|[k [lk [l' [tr [Hk [Ha [Hb Es]]]]]]]];
    rewrite Es in E2; injection E2 as <- <- <-.
  - left. split; [exact Ha|]. split; [lia|]. reflexivity.
  - right.
    destruct (closest_body_cases (oscelt (conics pha_el r) r GM_EARTH) lk)
      as [[l'' [E _]]|[t1 [d1 [t2 [d2 [Hw [H1 [H3 E]]]]]]]];
      cbn zeta in E; rewrite E in Hb; [discriminate|].
    injection Hb as <- <-.
    exists k, lk, t1, d1, t2, d2. repeat split; assumption.
Qed.

(** C4.  At the head of every pass of the scan inside the SOI reached
    without leaving the loop, the running minimum is at most every sample
    distance evaluated so far.  And when a call returns without a
    three-point minimum ever confirmed, the returned closest approach is
    one of the samples of that scan, with a distance at most that of every
    sample of the scan. *)
Theorem fallback_minimum_is_smallest_sample
        (pha_el : list Q) (start soi : Q) (max_iter : Z) :
  (forall el l0 k lk j,
      bracket l0 = [] -> min_distance l0 = Inf ->
      inside_after (body el) k l0 = Some lk -> (j < k)%nat ->
      dist_le (min_distance lk) (eda el (scan_time (dt_et l0) (step l0) j)))
  /\
  (forall crs met md,
      outcome (calc pha_el start soi max_iter) = inr (crs, met, md) ->
      (forall t, ~ confirmed_at (calc pha_el start soi max_iter) t) ->
      exists t d,
        met = Some t /\ md = Finite d /\
        In (Eval InsideScan t d) (events (calc pha_el start soi max_iter)) /\
        forall t' d',
          In (Eval InsideScan t' d')
             (events (calc pha_el start soi max_iter)) ->
          d <= d').
Proof.
  split.
  - intros el l0 k lk j Hb Hm H Hj. destruct k as [|k]; [lia|].
    destruct (inside_min el k l0 lk Hb Hm H) as [j0 [_ [_ [Emd Hle]]]].
    rewrite Emd. simpl. apply Hle. lia.
  - intros crs met md H Hno.
    destruct (returned_run_shape _ _ _ _ _ _ _ H)
      as [r [tr1 [tr2 [tr3 [l3 [l4 [fl3 S]]]]]]].
    cbn zeta in S.
    destruct S as [Hev [H1 [H3 [_ [_ [Ht [Hd [F|B]]]]]]]].
    + destruct F as [Ha [Hn Etr]].
      destruct (Z.to_nat max_iter) as [|k] eqn:En; [lia|].
      destruct (inside_min _ k (mkLocals r 1 [r] Inf None []) l3
                           eq_refl eq_refl Ha)
        as [j [Hj [Eet [Emd Hle]]]].
      cbn [dt_et step] in Eet, Emd, Hle.
      eexists _, _. split; [rewrite Ht; exact Eet|].
      split; [rewrite Hd; exact Emd|]. rewrite Hev. split.
      * apply in_or_app. right. apply in_or_app. left. rewrite Etr.
        apply scan_events_in. lia.
      * intros t' d' Hin. apply in_app_or in Hin. destruct Hin as [Hin|Hin].
        { destruct (H1 _ _ _ Hin); discriminate. }
        apply in_app_or in Hin. destruct Hin as [Hin|Hin].
        { rewrite Etr in Hin. apply in_scan_events in Hin.
          destruct Hin as [_ [j' [Hj' [-> ->]]]]. apply Hle. lia. }
        destruct (H3 _ _ _ Hin); discriminate.
    + exfalso. destruct B as [k [lk [t1 [d1 [t2 [d2 B]]]]]].
      destruct B as [_ [_ [_ [_ [_ B]]]]]. cbn zeta in B.
      destruct B as [_ [Etr _]]. eapply Hno. eexists. rewrite Hev.
      apply in_or_app. right. apply in_or_app. left. rewrite Etr.
      apply in_or_app. right. right. left. reflexivity.
Qed.

(** C10.  When a call returns and its scan inside the SOI confirmed a
    three-point minimum, evaluating the distance [d] at the fitted time
    [t], then the returned closest approach is exactly [(t, d)]: [t] is
    the vertex fitted to three samples with a strictly lowest middle one,
    [d] is the distance evaluated again at [t], and no sample distance,
    however small, enters the result.  The pass that took the third
    sample [(t3, d3)] left the loop with [(t, d)] as the minimum, whatever
    minimum it held on entry and without folding [d3] into it. *)
Theorem confirmed_minimum_replaces_fallback
        (pha_el : list Q) (start soi : Q) (max_iter : Z)
        (crs : list Q) (met : option Q) (md : dist) (t d : Q) :
  outcome (calc pha_el start soi max_iter) = inr (crs, met, md) ->
  In (Eval VertexEval t d) (events (calc pha_el start soi max_iter)) ->
  met = Some t /\ md = Finite d /\
  exists t_entry rest t1 d1 t2 d2 t3 d3,
    crs = t_entry :: rest /\
    In (Eval InsideScan t1 d1) (events (calc pha_el start soi max_iter)) /\
    In (Eval InsideScan t2 d2) (events (calc pha_el start soi max_iter)) /\
    In (Eval InsideScan t3 d3) (events (calc pha_el start soi max_iter)) /\
    d2 < d1 /\ d2 < d3 /\
    t = quadratic_approximation t1 d1 t2 d2 t3 d3 /\
    d = eda (oscelt (conics pha_el t_entry) t_entry GM_EARTH) t /\
    exists lk,
      bracket lk = [(t1, d1); (t2, d2)] /\ dt_et lk = t3 /\
      body (oscelt (conics pha_el t_entry) t_entry GM_EARTH) lk =
      (Break,
       mkLocals (t + 10) 10 (soi_crossings lk) (Finite d) (Some t)
                [(t1, d1); (t2, d2); (t3, d3)],
       [Eval InsideScan t3 d3; Eval VertexEval t d]).
Proof.
  intros H Hin.
  destruct (returned_run_shape _ _ _ _ _ _ _ H)
    as [r [tr1 [tr2 [tr3 [l3 [l4 [fl3 S]]]]]]].
  cbn zeta in S.
  destruct S as [Hev [H1 [H3 [E3 [Hc [Ht [Hd [F|B]]]]]]]].
  - exfalso. destruct F as [_ [_ Etr]]. rewrite Hev in Hin.
    apply in_app_or in Hin. destruct Hin as [Hin|Hin].
    { destruct (H1 _ _ _ Hin); discriminate. }
    apply in_app_or in Hin. destruct Hin as [Hin|Hin].
    { rewrite Etr in Hin. apply in_scan_events in Hin.
      destruct Hin as [Hst _]. discriminate. }
    destruct (H3 _ _ _ Hin); discriminate.
  - destruct B as [k [lk [t1 [d1 [t2 [d2 B]]]]]].
    destruct B as [Hk [Ha [Hw [L1 [L3 B]]]]]. cbn zeta in B.
    destruct B as [El3 [Etr Ebody]].
    destruct (inside_inv _ k (mkLocals r 1 [r] Inf None []) lk eq_refl Ha)
      as [It [_ [Ic Iw]]].
    cbn [dt_et step soi_crossings] in It, Ic, Iw.
    assert (Hv : t = quadratic_approximation
                       t1 d1 t2 d2 (dt_et lk)
                       (eda (oscelt (conics pha_el r) r GM_EARTH) (dt_et lk))
                 /\ d = eda (oscelt (conics pha_el r) r GM_EARTH) t).
    { rewrite Hev in Hin. apply in_app_or in Hin. destruct Hin as [Hin|Hin].
      { destruct (H1 _ _ _ Hin); discriminate. }
      apply in_app_or in Hin. destruct Hin as [Hin|Hin].
      - rewrite Etr in Hin. apply in_app_or in Hin.
        destruct Hin as [Hin|Hin].
        + apply in_scan_events in Hin. destruct Hin as [Hst _]. discriminate.
        + destruct Hin as [Hin|[Hin|[]]]; [discriminate|].
          injection Hin as <- <-. split; reflexivity.
      - destruct (H3 _ _ _ Hin); discriminate. }
    destruct Hv as [Hvt Hvd].
    split; [rewrite Ht, El3, Hvt; reflexivity|].
    split; [rewrite Hd, El3, Hvd, Hvt; reflexivity|].
    assert (Hcrs : exists rest, crs = r :: rest).
    { destruct (crossing_scan_cases Exiting
                  (oscelt (conics pha_el r) r GM_EARTH) soi
                  (Z.to_nat max_iter) l3) as [[i [_ [_ E]]]|[_ E]];
        rewrite E in E3; clear E.
      - unfold scan_stop in E3. destruct (brentq _ _ _) as [x|];
          injection E3 as _ <- _; rewrite Hc, El3; cbn; rewrite Ic;
            eexists; reflexivity.
      - injection E3 as _ <- _. rewrite Hc, El3. cbn. rewrite Ic.
        eexists; reflexivity. }
    destruct Hcrs as [rest Hcrs].
    rewrite Hw in Iw. destruct k as [|[|k]]; try discriminate.
    cbn [window_before sample_at] in Iw. injection Iw as Et1 Ed1 Et2 Ed2.
    exists r, rest, t1, d1, t2, d2, (dt_et lk),
           (eda (oscelt (conics pha_el r) r GM_EARTH) (dt_et lk)).
    split; [exact Hcrs|]. rewrite Hev, Etr.
    split; [|split; [|split]].
    + apply in_or_app; right; apply in_or_app; left; apply in_or_app; left.
      rewrite Ed1, Et1.
      apply (scan_events_in InsideScan _ (S (S k)) r 1 k). lia.
    + apply in_or_app; right; apply in_or_app; left; apply in_or_app; left.
      rewrite Ed2, Et2.
      apply (scan_events_in InsideScan _ (S (S k)) r 1 (S k)). lia.
    + apply in_or_app; right; apply in_or_app; left; apply in_or_app; right.
      left. reflexivity.
    + split; [exact L1|]. split; [exact L3|]. split; [exact Hvt|].
      split; [exact Hvd|]. exists lk. split; [exact Hw|].
      split; [reflexivity|]. rewrite Ebody, El3, Hvd, Hvt. reflexivity.
Qed.

(** *** Order of the three events *)

Section Bracketed.

(** The root finder answers inside the bracket it is given. *)
Hypothesis brentq_in_bracket :
  forall f a b x, a <= b -> brentq f a b = Some x -> a <= x /\ x <= b.

(** C3, amended.  When a call returns two crossings and a closest
    approach, [entry <= approach <= exit]; and [entry < approach] when the
    closest approach is a confirmed three-point minimum.  The root finder
    is taken to answer inside its bracket. *)
Theorem crossings_and_approach_are_ordered
        (pha_el : list Q) (start soi : Q) (max_iter : Z)
        (entry exit approach : Q) (md : dist) :
  outcome (calc pha_el start soi max_iter)
  = inr ([entry; exit], Some approach, md) ->
  entry <= approach /\ approach <= exit /\
  (confirmed_at (calc pha_el start soi max_iter) approach ->
   entry < approach).
Proof.
  intro H.
  destruct (returned_run_shape _ _ _ _ _ _ _ H)
    as [r [tr1 [tr2 [tr3 [l3 [l4 [fl3 S]]]]]]].
  cbn zeta in S.
  destruct S as [Hev [H1 [H3 [E3 [Hc [Ht [_ Hcase]]]]]]].
  assert (Hcore : soi_crossings l3 = [r] /\ 0 < step l3 /\
                  r <= approach /\ approach <= dt_et l3 - step l3 /\
                  (confirmed_at (calc pha_el start soi max_iter) approach ->
                   r < approach)).
  { destruct Hcase as [F|B].
    - destruct F as [Ha [Hn Etr]].
      destruct (Z.to_nat max_iter) as [|k] eqn:En; [lia|].
      destruct (inside_inv _ (S k) (mkLocals r 1 [r] Inf None []) l3
                           eq_refl Ha) as [It [Is [Ic _]]].
      destruct (inside_min _ k (mkLocals r 1 [r] Inf None []) l3
                           eq_refl eq_refl Ha) as [j [Hj [Eet _]]].
      cbn [dt_et step soi_crossings] in It, Is, Ic, Eet.
      rewrite Eet in Ht. injection Ht as ->.
      split; [exact Ic|]. rewrite Is, It, scan_time_S.
      pose proof (scan_time_ge r 1 j) as G.
      pose proof (scan_time_mono r 1 j k) as M.
      split; [lra|]. split; [apply G; lra|].
      split; [assert (scan_time r 1 j <= scan_time r 1 k)
               by (apply M; [lra|lia]); lra|].
      intros [d Hin]. exfalso. rewrite Hev in Hin.
      apply in_app_or in Hin. destruct Hin as [Hin|Hin].
      { destruct (H1 _ _ _ Hin); discriminate. }
      apply in_app_or in Hin. destruct Hin as [Hin|Hin].
      { rewrite Etr in Hin. apply in_scan_events in Hin.
        destruct Hin as [Hst _]. discriminate. }
      destruct (H3 _ _ _ Hin); discriminate.
    - destruct B as [k [lk [t1 [d1 [t2 [d2 B]]]]]].
      destruct B as [Hk [Ha [Hw [L1 [L3 B]]]]]. cbn zeta in B.
      destruct B as [El3 _].
      destruct (inside_inv _ k (mkLocals r 1 [r] Inf None []) lk eq_refl Ha)
        as [It [_ [Ic Iw]]].
      cbn [dt_et step soi_crossings] in It, Ic, Iw.
      rewrite Hw in Iw. destruct k as [|[|k]]; try discriminate.
      cbn [window_before] in Iw. unfold sample_at in Iw.
      assert (Et1 : t1 = scan_time r 1 k) by congruence.
      assert (Et2 : t2 = scan_time r 1 (S k)) by congruence.
      clear Iw. rewrite scan_time_S in Et2. rewrite <- Et1 in Et2.
      rewrite !scan_time_S in It. rewrite <- Et1 in It.
      rewrite El3 in Ht |- *. cbn [min_et soi_crossings step dt_et] in Ht |- *.
      injection Ht as ->. rewrite It in L3 |- *. rewrite Et2.
      destruct (quadratic_approximation_in_window
                  t1 d1 d2 _ 1 ltac:(lra) L1 L3) as [Q1 _].
      pose proof (scan_time_ge r 1 k) as G. rewrite <- Et1 in G.
      assert (r <= t1) by (apply G; lra).
      split; [exact Ic|]. split; [lra|]. split; [lra|]. split; [lra|].
      intros _. lra. }
  destruct Hcore as [Ic [Hs [Hra [Had Hconf]]]].
  destruct (crossing_scan_cases Exiting
              (oscelt (conics pha_el r) r GM_EARTH) soi
              (Z.to_nat max_iter) l3) as [[i [_ [_ E]]]|[_ E]];
    rewrite E in E3; clear E.
  - unfold scan_stop in E3.
    destruct (brentq _ _ _) as [x|] eqn:Ex; injection E3 as _ <- _;
      cbn [set_soi_crossings set_dt_et soi_crossings] in Hc;
      rewrite Ic in Hc; [|discriminate].
    injection Hc as -> ->.
    apply brentq_in_bracket in Ex; [|lra].
    pose proof (scan_time_ge (dt_et l3) (step l3) i) as G.
    assert (dt_et l3 <= scan_time (dt_et l3) (step l3) i) by (apply G; lra).
    split; [exact Hra|]. split; [lra|]. exact Hconf.
  - injection E3 as _ <- _. cbn [set_dt_et soi_crossings] in Hc.
    rewrite Ic in Hc. discriminate.
Qed.

End Bracketed.

End Scans.

(** ** Runs on the concrete ephemeris *)

Lemma Toy_bisect_in_bracket (fuel : nat) (f : Q -> Q) : forall a b,
  a <= b -> a <= Toy.bisect fuel f a b /\ Toy.bisect fuel f a b <= b.
Proof.
  induction fuel as [|k IH]; intros a b Hab;
    assert (Hm : a <= Qred ((a + b) / 2) /\ Qred ((a + b) / 2) <= b)
      by (rewrite Qred_correct; unfold Qdiv; change (/ 2) with (1 # 2);
          split; lra);
    destruct Hm as [Hm1 Hm2]; cbn [Toy.bisect].
  - split; assumption.
  - destruct (Qeq_bool _ 0); [split; assumption|].
    destruct (Qltb _ 0).
    + destruct (IH a (Qred ((a + b) / 2)) Hm1) as [I1 I2]. split; lra.
    + destruct (IH (Qred ((a + b) / 2)) b Hm2) as [I1 I2]. split; lra.
Qed.

(** The concrete root finder answers inside its bracket. *)
Lemma Toy_brentq_in_bracket (f : Q -> Q) (a b x : Q) :
  a <= b -> Toy.brentq f a b = Some x -> a <= x /\ x <= b.
Proof.
  intros Hab. unfold Toy.brentq.
  pose proof (Toy_bisect_in_bracket 6 f a b Hab) as B.
  revert B. generalize (Toy.bisect 6 f a b). intros m B.
  destruct (Qeq_bool (f a) 0); [intro H; injection H as <-; split; lra|].
  destruct (Qeq_bool (f b) 0); [intro H; injection H as <-; split; lra|].
  destruct (Qltb 0 (f a * f b)); [discriminate|].
  intro H; injection H as <-. exact B.
Qed.

Lemma no_vertex_eval_in (evs : list event) :
  existsb is_vertex_eval evs = false ->
  forall t d, ~ In (Eval VertexEval t d) evs.
Proof.
  intros H t d Hin.
  assert (T : existsb is_vertex_eval evs = true).
  { apply existsb_exists. eexists. split; [exact Hin|reflexivity]. }
  congruence.
Qed.

Lemma crossing_scan_stops_at_first_crossing_witness :
  crossing_scan Toy.conics (Toy.spkgeo 3) Toy.vnorm Toy.brentq
                Entering [-2; 1] 5 5 (initial_locals (-40))
  = scan_stop Toy.conics (Toy.spkgeo 3) Toy.vnorm Toy.brentq
              Entering [-2; 1] 5 (initial_locals (-40)) 2
  /\
  crossing_scan Toy.conics (Toy.spkgeo 3) Toy.vnorm Toy.brentq
                Exiting [-2; 1] 5 5 (mkLocals 7 1 [0] (Finite 0) (Some 2) [])
  = scan_stop Toy.conics (Toy.spkgeo 3) Toy.vnorm Toy.brentq
              Exiting [-2; 1] 5 (mkLocals 7 1 [0] (Finite 0) (Some 2) []) 3.
Proof.
  split; apply crossing_scan_stops_at_first_crossing; try lia.
  - split; [apply crossedb_true; vm_compute; reflexivity|].
    intros j Hj. apply crossedb_false.
    destruct j as [|[|j]]; [vm_compute; reflexivity ..|lia].
  - split; [apply crossedb_true; vm_compute; reflexivity|].
    intros j Hj. apply crossedb_false.
    destruct j as [|[|[|j]]]; [vm_compute; reflexivity ..|lia].
Defined.

Lemma first_sample_triggers_within_budget_witness :
  first_sample_triggers Toy.conics (Toy.spkgeo 100) Toy.oscelt Toy.vnorm
                        Toy.brentq [95; 1] 0 6 1.
Proof.
  apply first_sample_triggers_within_budget;
    [reflexivity | vm_compute; reflexivity].
Defined.

(** C7, as the specification states it, fails: with [max_iter = 0] and a
    start distance 5 below the threshold 6 nothing is evaluated. *)
Lemma first_sample_does_not_trigger_without_budget :
  ~ (Toy.distance_from_earth 100 0 [95; 1] < 6 ->
     first_sample_triggers Toy.conics (Toy.spkgeo 100) Toy.oscelt Toy.vnorm
                           Toy.brentq [95; 1] 0 6 0).
Proof.
  intro H. destruct H as [rest E]; [vm_compute; reflexivity|].
  vm_compute in E. discriminate E.
Qed.

(** C3, as the specification states it, fails: this call returns both
    crossings and a closest approach, at the times 0, 10 and 0. *)
Lemma entry_and_approach_times_coincide :
  ~ strictly_ordered (Toy.calculate_crossings 100 [95; 1] 0 5 10).
Proof.
  intro H. destruct (H 0 10 0 (Finite 95)) as [A _];
    [vm_compute; reflexivity|].
  vm_compute in A. discriminate A.
Qed.

(** Nor is the exit always after the closest approach: here the root
    finder is handed a bracket whose left end, the fitted time, is a
    root. *)
Lemma approach_and_exit_times_coincide :
  ~ strictly_ordered (Toy.calculate_crossings (-5) [-5; 1] 0 5 12).
Proof.
  intro H.
  destruct (H (-5) (5165606520 # 1033121304) (5165606520 # 1033121304)
              (Finite 0)) as [_ B]; [vm_compute; reflexivity|].
  vm_compute in B. discriminate B.
Qed.

Lemma crossings_and_approach_are_ordered_witness :
  0 <= (2066242608 # 1033121304) /\
  (2066242608 # 1033121304) <= (643 # 64) /\
  (confirmed_at (Toy.calculate_crossings 3 [-2; 1] 0 5 5)
                (2066242608 # 1033121304) ->
   0 < (2066242608 # 1033121304)).
Proof.
  apply (crossings_and_approach_are_ordered
           Toy.conics (Toy.spkgeo 3) Toy.oscelt Toy.vnorm Toy.brentq
           Toy_brentq_in_bracket [-2; 1] 0 5 5
           0 (643 # 64) (2066242608 # 1033121304) (Finite 0)).
  vm_compute. reflexivity.
Defined.

Lemma sliding_window_is_a_queue_of_three_witness :
  let el := [-2; 1] in
  let l0 := mkLocals 0 1 [0] Inf None [] in
  let lk := mkLocals 2 1 [0] (Finite 1) (Some 1) [(0, 2); (1, 1)] in
  let w := bracket lk ++ [(dt_et lk, Toy.earth_dist_at el (dt_et lk))] in
  inside_after (closest_body Toy.conics Toy.vnorm el) 2 l0 = Some lk /\
  w = [(0, 2); (1, 1); (2, 0)] /\
  step lk = step l0 /\
  (List.length (bracket lk) <= 2)%nat /\
  (List.length w <= 3)%nat /\
  chain Qlt (map fst w) /\
  chain (fun t t' => t' = t + step l0) (map fst w) /\
  forall l' tr,
    closest_body Toy.conics Toy.vnorm el lk = (Continue, l', tr) ->
    bracket l' = if (List.length w =? 3)%nat then tl w else w.
Proof.
  cbv zeta. split; [vm_compute; reflexivity|].
  split; [vm_compute; reflexivity|].
  apply (sliding_window_is_a_queue_of_three
           Toy.conics Toy.vnorm [-2; 1] (mkLocals 0 1 [0] Inf None []) 2
           (mkLocals 2 1 [0] (Finite 1) (Some 1) [(0, 2); (1, 1)]));
    [reflexivity | reflexivity | vm_compute; reflexivity].
Defined.

Lemma fallback_minimum_is_smallest_sample_witness :
  let run := Toy.calculate_crossings 100 [95; 1] 0 5 10 in
  dist_le (Finite 95) (Toy.earth_dist_at [95; 1] (scan_time 0 1 2)) /\
  outcome run = inr ([0; 10], Some 0, Finite 95) /\
  exists t d,
    Some 0 = Some t /\ Finite 95 = Finite d /\
    In (Eval InsideScan t d) (events run) /\
    forall t' d', In (Eval InsideScan t' d') (events run) -> d <= d'.
Proof.
  cbv zeta.
  destruct (fallback_minimum_is_smallest_sample
              Toy.conics (Toy.spkgeo 100) Toy.oscelt Toy.vnorm Toy.brentq
              [95; 1] 0 5 10) as [Inv Ret].
  split; [|split].
  - apply (Inv [95; 1] (mkLocals 0 1 [0] Inf None []) 3%nat
               (mkLocals 3 1 [0] (Finite 95) (Some 0) [(1, 96); (2, 97)])
               2%nat);
      [reflexivity | reflexivity | vm_compute; reflexivity | lia].
  - vm_compute. reflexivity.
  - apply (Ret [0; 10] (Some 0) (Finite 95)); [vm_compute; reflexivity|].
    intros t [d Hin]. revert Hin. apply no_vertex_eval_in.
    vm_compute. reflexivity.
Defined.

Lemma confirmed_minimum_replaces_fallback_witness :
  let run :=
      calculate_crossings Toy.conics (Toy.spkgeo 0)
                          (Toy.oscelt_const [40; -22; 1]) Toy.vnorm
                          Toy.brentq [-5; 1] 0 5 6 in
  exists crs met md t d,
    outcome run = inr (crs, met, md) /\
    In (Eval VertexEval t d) (events run) /\
    In (Eval InsideScan 2 0) (events run) /\
    0 < d /\
    met = Some t /\ md = Finite d.
Proof.
  cbv zeta. eexists _, _, _, _, _.
  assert (Ho : outcome
                 (calculate_crossings Toy.conics (Toy.spkgeo 0)
                                      (Toy.oscelt_const [40; -22; 1])
                                      Toy.vnorm Toy.brentq [-5; 1] 0 5 6)
               = inr ([0; 1303 # 576], Some (37708927596 # 18596183472),
                      Finite (647 # 1296)))
    by (vm_compute; reflexivity).
  assert (Hi : In (Eval VertexEval (37708927596 # 18596183472) (647 # 1296))
                  (events
                     (calculate_crossings Toy.conics (Toy.spkgeo 0)
                                          (Toy.oscelt_const [40; -22; 1])
                                          Toy.vnorm Toy.brentq
                                          [-5; 1] 0 5 6)))
    by (vm_compute; do 7 right; left; reflexivity).
  split; [exact Ho|]. split; [exact Hi|].
  split; [vm_compute; do 5 right; left; reflexivity|].
  split; [reflexivity|].
  destruct (confirmed_minimum_replaces_fallback
              Toy.conics (Toy.spkgeo 0) (Toy.oscelt_const [40; -22; 1])
              Toy.vnorm Toy.brentq [-5; 1] 0 5 6 _ _ _ _ _ Ho Hi)
    as [Hm [Hd _]].
  split; [exact Hm | exact Hd].
Defined.

(** ** Where the code departs from the specification *)

(** C1.  The last scan does subtract the Earth's heliocentric position
    from the position given by the Earth-relative elements.  In this run
    (entry at 0, elements [el] derived there) the distance it compares
    with the threshold at [t = 1] is 4, whereas the norm of the position
    given by [el] at [t = 1] is 96; with the latter the scan would have
    stopped at [t = 1]. *)
Theorem second_scan_subtracts_earth_position :
  let run := Toy.calculate_crossings 100 [95; 1] 0 5 1 in
  let el := Toy.oscelt (Toy.conics [95; 1] 0) 0 GM_EARTH in
  In (Eval SecondScan 1 4) (events run) /\
  Toy.distance_from_earth 100 1 el = 4 /\
  Toy.earth_dist_at el 1 = 96 /\
  Qle_bool 5 4 = false /\ Qle_bool 5 96 = true.
Proof.
  cbv zeta. split; [vm_compute; do 4 right; left; reflexivity|].
  repeat split; vm_compute; reflexivity.
Qed.

(** C2.  The last scan has no [else] branch: when it runs out of passes
    nothing is raised.  Here the budget is one pass, the last scan
    evaluates the distance 4 < 5 at [t = 1] and ends, and the call returns
    a result with a single crossing. *)
Theorem second_scan_exhaustion_is_silent :
  Toy.calculate_crossings 100 [95; 1] 0 5 1 =
  mkRun (inr ([0], Some 0, Finite 95))
        [Eval FirstScan 0 5; Refine FirstScan (-20) 0 (Some 0);
         Eval FirstReport 0 5; Eval InsideScan 0 95; Eval SecondScan 1 4].
Proof. vm_compute. reflexivity. Qed.

(** * Further properties of [calculate_crossings] *)

Lemma first_hit_time (dir : direction) (soi : Q) (f : Q -> Q) (t s : Q)
      (i : nat) :
  first_hit (fun u => crossedb dir soi (f u)) t s i ->
  first_time (fun u => crossed dir soi (f u)) t s i.
Proof.
  intros [H1 H2]. split.
  - apply crossedb_true. exact H1.
  - intros j Hj. apply crossedb_false. apply H2. exact Hj.
Qed.

Lemma length_scan_events (st : site) (f : Q -> Q) (k : nat) : forall t s,
  List.length (scan_events st f t s k) = k.
Proof.
  induction k as [|k IH]; intros t s; [reflexivity|].
  simpl. rewrite IH. reflexivity.
Qed.


(** Takes a membership in the record of a run apart. *)
Ltac split_in H :=
  repeat (apply in_app_or in H; destruct H as [H|H]).

Section Outcomes.

Variable conics : list Q -> Q -> list Q.
Variable spkgeo : Z -> Q -> string -> Z -> list Q * Q.
Variable oscelt : list Q -> Q -> Q -> list Q.
Variable vnorm : list Q -> Q.
Variable brentq : (Q -> Q) -> Q -> Q -> option Q.

(** Short names for the functions of the model on this ephemeris. *)
Local Abbreviation dfe := (distance_from_earth conics spkgeo vnorm).
Local Abbreviation eda := (earth_dist_at conics vnorm).
Local Abbreviation scan := (crossing_scan conics spkgeo vnorm brentq).
Local Abbreviation body := (closest_body conics vnorm).
Local Abbreviation scan2 := (closest_approach_scan conics vnorm).
Local Abbreviation calc :=
  (calculate_crossings conics spkgeo oscelt vnorm brentq).

(** The scan inside the SOI, started as [calculate_crossings] starts it
    with at least one pass, ends with the crossing list untouched, a
    positive step and a closest approach; it evaluates either at all [n]
    scan times, or at the first [k + 1] of them and at a fitted vertex. *)
Lemma closest_approach_scan_summary (el : list Q) (r : Q) (n : nat)
      (fl2 : flow) (l3 : locals) (tr2 : list event) :
  (0 < n)%nat ->
  scan2 el n (mkLocals r 1 [r] Inf None []) = (fl2, l3, tr2) ->
  soi_crossings l3 = [r] /\ 0 < step l3 /\
  (exists t d, min_et l3 = Some t /\ min_distance l3 = Finite d) /\
  ((tr2 = scan_events InsideScan (eda el) r 1 n /\
    dt_et l3 = scan_time r 1 n /\ step l3 = 1)
   \/
   exists k tm,
     (k < n)%nat /\
     tr2 = scan_events InsideScan (eda el) r 1 (S k) ++
           [Eval VertexEval tm (eda el tm)] /\
     dt_et l3 = tm + 10 /\ step l3 = 10 /\ min_et l3 = Some tm).
Proof.
  intros Hn E.
  destruct (closest_approach_scan_cases conics vnorm el n
              (mkLocals r 1 [r] Inf None []))
    as [[ln [Ha Es]]|[k [lk [l' [tr [Hk [Ha [Hb Es]]]]]]]];
    rewrite Es in E; injection E as <- <- <-.
  - destruct n as [|m]; [lia|].
    destruct (inside_inv conics vnorm el (S m)
                         (mkLocals r 1 [r] Inf None []) ln eq_refl Ha)
      as [It [Is [Ic _]]].
    destruct (inside_min conics vnorm el m
                         (mkLocals r 1 [r] Inf None []) ln eq_refl eq_refl Ha)
      as [j [_ [Eet [Emd _]]]].
    cbn [dt_et step soi_crossings] in *.
    split; [exact Ic|]. split; [rewrite Is; reflexivity|].
    split; [eexists _, _; split; [exact Eet|exact Emd]|].
    left. split; [reflexivity|]. split; [exact It|exact Is].
  - destruct (inside_inv conics vnorm el k
                         (mkLocals r 1 [r] Inf None []) lk eq_refl Ha)
      as [It [_ [Ic _]]].
    cbn [dt_et step soi_crossings] in *.
    destruct (closest_body_cases conics vnorm el lk)
      as [[l'' [E _]]|[t1 [d1 [t2 [d2 [Hw [H1 [H3 E]]]]]]]];
      cbn zeta in E; rewrite E in Hb; [discriminate|].
    injection Hb as <- <-. cbn [soi_crossings step min_et min_distance].
    split; [exact Ic|]. split; [reflexivity|].
    split; [eexists _, _; split; reflexivity|].
    right. eexists k, _. split; [exact Hk|].
    assert (Hs : forall f t s m,
               scan_events InsideScan f t s (S m) =
               scan_events InsideScan f t s m ++
               [Eval InsideScan (scan_time t s m) (f (scan_time t s m))]).
    { intros f t s m. revert t. induction m as [|m IH]; intro t;
        [reflexivity|].
      change (scan_events InsideScan f t s (S (S m)))
        with (Eval InsideScan t (f t)
              :: scan_events InsideScan f (t + s) s (S m)).
      rewrite IH. reflexivity. }
    split; [rewrite Hs, <- It, <- app_assoc; reflexivity|].
    repeat split.
Qed.

(** All the ways a call can end. *)
Lemma run_cases (pha_el : list Q) (start soi : Q) (max_iter : Z) :
  let n := Z.to_nat max_iter in
  let f1 := fun u => dfe u pha_el in
  ((forall j, (j < n)%nat -> ~ f1 (scan_time start 20 j) <= soi) /\
   calc pha_el start soi max_iter =
   mkRun (inl (RuntimeError "First SOI crossing not found"))
         (scan_events FirstScan f1 start 20 n))
  \/
  (exists i,
      (i < n)%nat /\
      first_time (fun t => f1 t <= soi) start 20 i /\
      calc pha_el start soi max_iter =
      mkRun (inl ValueError)
            (scan_events FirstScan f1 start 20 (S i) ++
             [Refine FirstScan (scan_time start 20 i - 20)
                     (scan_time start 20 i) None]))
  \/
  (exists i r fl2 l3 tr2,
      (i < n)%nat /\
      first_time (fun t => f1 t <= soi) start 20 i /\
      brentq (fun u => f1 u - soi)
             (scan_time start 20 i - 20) (scan_time start 20 i) = Some r /\
      let el := oscelt (conics pha_el r) r GM_EARTH in
      let f3 := fun u => dfe u el in
      let tr1 := scan_events FirstScan f1 start 20 (S i) ++
                 [Refine FirstScan (scan_time start 20 i - 20)
                         (scan_time start 20 i) (Some r);
                  Eval FirstReport r (f1 r)] in
      scan2 el n (mkLocals r 1 [r] Inf None []) = (fl2, l3, tr2) /\
      (((forall j, (j < n)%nat ->
                   ~ soi <= f3 (scan_time (dt_et l3) (step l3) j)) /\
        calc pha_el start soi max_iter =
        mkRun (inr ([r], min_et l3, min_distance l3))
              (tr1 ++ tr2 ++
               scan_events SecondScan f3 (dt_et l3) (step l3) n))
       \/
       (exists j,
           (j < n)%nat /\
           first_time (fun t => soi <= f3 t) (dt_et l3) (step l3) j /\
           let u := scan_time (dt_et l3) (step l3) j in
           calc pha_el start soi max_iter =
           mkRun (inl ValueError)
                 (tr1 ++ tr2 ++
                  scan_events SecondScan f3 (dt_et l3) (step l3) (S j) ++
                  [Refine SecondScan (u - step l3) u None]))
       \/
       (exists j x,
           (j < n)%nat /\
           first_time (fun t => soi <= f3 t) (dt_et l3) (step l3) j /\
           let u := scan_time (dt_et l3) (step l3) j in
           brentq (fun v => f3 v - soi) (u - step l3) u = Some x /\
           calc pha_el start soi max_iter =
           mkRun (inr ([r; x], min_et l3, min_distance l3))
                 (tr1 ++ tr2 ++
                  scan_events SecondScan f3 (dt_et l3) (step l3) (S j) ++
                  [Refine SecondScan (u - step l3) u (Some x);
                   Eval SecondReport x (f3 x)])))).
Proof.
  cbn zeta. unfold calculate_crossings.
  destruct (crossing_scan_cases conics spkgeo vnorm brentq Entering
              pha_el soi (Z.to_nat max_iter) (initial_locals start))
    as [[i [Hi [Hh E]]]|[Hm E]];
    unfold crossing_scan in E; rewrite E; clear E.
  2:{ left. split; [|reflexivity]. intros j Hj.
      apply (crossedb_false Entering). apply Hm. exact Hj. }
  apply (first_hit_time Entering) in Hh.
  cbn [initial_locals dt_et step crossed] in Hh.
  right. unfold scan_stop.
  cbn [initial_locals dt_et step scan_site report_site].
  destruct (brentq _ _ _) as [r|] eqn:Er;
    [|left; exists i; split; [exact Hi|]; split; [exact Hh|reflexivity]].
  right. unfold after_first_crossing.
  cbn [initial_locals set_dt_et set_step set_soi_crossings soi_crossings app
       dt_et step min_distance min_et bracket].
  destruct (scan2 _ _ _) as [[fl2 l3] tr2] eqn:E2.
  exists i, r, fl2, l3, tr2. split; [exact Hi|]. split; [exact Hh|].
  split; [exact Er|]. split; [exact E2|].
  assert (Hn : (0 < Z.to_nat max_iter)%nat) by lia.
  destruct (closest_approach_scan_summary _ _ _ _ _ _ Hn E2) as [Ic _].
  destruct (crossing_scan_cases conics spkgeo vnorm brentq Exiting
              (oscelt (conics pha_el r) r GM_EARTH) soi
              (Z.to_nat max_iter) l3)
    as [[j [Hj [Hh3 E]]]|[Hm3 E]];
    unfold crossing_scan in E; rewrite E; clear E.
  - apply (first_hit_time Exiting) in Hh3. cbn [crossed] in Hh3.
    unfold scan_stop. cbn [scan_site report_site].
    match goal with
    | |- context [match brentq ?f ?a ?b with _ => _ end] =>
      destruct (brentq f a b) as [x|] eqn:Ex
    end.
    + right. right. exists j, x. split; [exact Hj|]. split; [exact Hh3|].
      split; [exact Ex|].
      cbn [set_soi_crossings set_dt_et soi_crossings min_et min_distance].
      rewrite Ic. reflexivity.
    + right. left. exists j. split; [exact Hj|]. split; [exact Hh3|].
      reflexivity.
  - left. split.
    + intros j Hj. apply (crossedb_false Exiting). apply Hm3. exact Hj.
    + cbn [set_dt_et soi_crossings min_et min_distance scan_site].
      rewrite Ic. reflexivity.
Qed.




(** X2.  "First SOI crossing not found" is raised exactly when the
    distance is above the threshold at every one of the [max_iter] scan
    times [start], [start + 20], ... *)
Theorem first_crossing_not_found_iff
        (pha_el : list Q) (start soi : Q) (max_iter : Z) :
  outcome (calculate_crossings conics spkgeo oscelt vnorm brentq
                               pha_el start soi max_iter)
  = inl (RuntimeError "First SOI crossing not found")
  <->
  forall j, (j < Z.to_nat max_iter)%nat ->
            soi < dfe (scan_time start 20 j) pha_el.
Proof.
  destruct (run_cases pha_el start soi max_iter)
    as [[M E]|[[i [Hi [[H _] E]]]|[i [r [fl2 [l3 [tr2 C]]]]]]];
    cbn zeta in *.
  - rewrite E. split; [|reflexivity]. intros _ j Hj.
    apply Qnot_le_lt. apply M. exact Hj.
  - rewrite E. split; [discriminate|]. intro A. exfalso.
    apply (Qlt_not_le _ _ (A i Hi)). exact H.
  - destruct C as [Hi [[H _] [_ [_ C]]]].
    split.
    + destruct C as [[_ E]|[[j [_ [_ E]]]|[j [x [_ [_ [_ E]]]]]]];
        rewrite E; discriminate.
    + intro A. exfalso. apply (Qlt_not_le _ _ (A i Hi)). exact H.
Qed.


(** X4.  A call makes at most [3 * max_iter + 5] evaluations of a
    distance and calls of the root finder, whatever the ephemeris: each
    of the three loops keeps to the budget. *)
Theorem evaluations_within_budget
        (pha_el : list Q) (start soi : Q) (max_iter : Z) :
  (List.length
     (events (calculate_crossings conics spkgeo oscelt vnorm brentq
                                  pha_el start soi max_iter))
   <= 3 * Z.to_nat max_iter + 5)%nat.
Proof.
  destruct (run_cases pha_el start soi max_iter)
    as [[_ E]|[[i [Hi [_ E]]]|[i [r [fl2 [l3 [tr2 C]]]]]]];
    cbn zeta in *.
  - rewrite E. cbn [events]. rewrite length_scan_events. lia.
  - rewrite E. cbn [events]. rewrite length_app, length_scan_events.
    simpl. lia.
  - destruct C as [Hi [_ [_ [E2 C]]]].
    assert (Hn : (0 < Z.to_nat max_iter)%nat) by lia.
    destruct (closest_approach_scan_summary _ _ _ _ _ _ Hn E2)
      as [_ [_ [_ Htr]]].
    assert (H2 : (List.length tr2 <= Z.to_nat max_iter + 1)%nat).
    { destruct Htr as [[-> _]|[k [tm [Hk [-> _]]]]];
        rewrite ?length_app, !length_scan_events; simpl; lia. }
    destruct C as [[_ E]|[[j [Hj [_ E]]]|[j [x [Hj [_ [_ E]]]]]]];
      rewrite E; cbn [events];
      rewrite !length_app, !length_scan_events; simpl; lia.
Qed.

(** X5.  A returned result has a single crossing exactly when every one
    of the [max_iter] samples of the last scan was below the threshold;
    it has two exactly when some sample of that scan reached it. *)
Theorem crossings_returned_and_last_scan
        (pha_el : list Q) (start soi : Q) (max_iter : Z)
        (crs : list Q) (met : option Q) (md : dist) :
  let r := calculate_crossings conics spkgeo oscelt vnorm brentq
                               pha_el start soi max_iter in
  outcome r = inr (crs, met, md) ->
  (List.length crs = 1%nat /\
   forall u d, In (Eval SecondScan u d) (events r) -> d < soi)
  \/
  (List.length crs = 2%nat /\
   exists u d, In (Eval SecondScan u d) (events r) /\ soi <= d).
Proof.
  cbn zeta.
  destruct (run_cases pha_el start soi max_iter)
    as [[_ E]|[[i [_ [_ E]]]|[i [r [fl2 [l3 [tr2 C]]]]]]];
    cbn zeta in *; try (rewrite E; discriminate).
  destruct C as [Hi [_ [_ [E2 C]]]].
  assert (Hn : (0 < Z.to_nat max_iter)%nat) by lia.
  destruct (closest_approach_scan_summary _ _ _ _ _ _ Hn E2)
    as [_ [_ [_ Htr]]].
  destruct C as [[M E]|[[j [_ [_ E]]]|[j [x [Hj [[H _] [_ E]]]]]]];
    rewrite E; cbn [outcome events]; intro Ho; try discriminate;
      injection Ho as <- _ _.
  - left. split; [reflexivity|]. intros u d H. split_in H.
    + apply in_scan_events in H. destruct H as [H _]. discriminate.
    + destruct H as [H|[H|[]]]; discriminate.
    + destruct Htr as [[-> _]|[k [tm [_ [-> _]]]]]; split_in H.
      * apply in_scan_events in H. destruct H as [H _]. discriminate.
      * apply in_scan_events in H. destruct H as [H _]. discriminate.
      * destruct H as [H|[]]. discriminate.
    + apply in_scan_events in H. destruct H as [_ [j [Hj [-> ->]]]].
      apply Qnot_le_lt. apply M. exact Hj.
  - right. split; [reflexivity|]. eexists _, _. split; [|exact H].
    apply in_or_app. right. apply in_or_app. right. apply in_or_app. left.
    apply (scan_events_in
             SecondScan
             (fun u => dfe u (oscelt (conics pha_el r) r GM_EARTH))
             (S j) (dt_et l3) (step l3) j).
    lia.
Qed.



End Outcomes.

Section ApproachAndExit.

Variable conics : list Q -> Q -> list Q.
Variable spkgeo : Z -> Q -> string -> Z -> list Q * Q.
Variable oscelt : list Q -> Q -> Q -> list Q.
Variable vnorm : list Q -> Q.
Variable brentq : (Q -> Q) -> Q -> Q -> option Q.

(** Short names for the functions of the model on this ephemeris. *)
Local Abbreviation dfe := (distance_from_earth conics spkgeo vnorm).
Local Abbreviation eda := (earth_dist_at conics vnorm).
Local Abbreviation body := (closest_body conics vnorm).
Local Abbreviation calc :=
  (calculate_crossings conics spkgeo oscelt vnorm brentq).

(** The running minimum is the earliest of the smallest samples: every
    sample before it is strictly larger. *)
Lemma inside_min_first (el : list Q) (k : nat) : forall l0 lk,
  bracket l0 = [] -> min_distance l0 = Inf ->
  inside_after (body el) (S k) l0 = Some lk ->
  exists j, (j <= k)%nat /\
    min_et lk = Some (scan_time (dt_et l0) (step l0) j) /\
    min_distance lk = Finite (eda el (scan_time (dt_et l0) (step l0) j)) /\
    forall j', (j' < j)%nat ->
      eda el (scan_time (dt_et l0) (step l0) j) <
      eda el (scan_time (dt_et l0) (step l0) j').
Proof.
  induction k as [|k IH]; intros l0 lk Hb Hm H.
  - destruct (inside_min conics vnorm el O l0 lk Hb Hm H)
      as [j [Hj [Eet [Emd _]]]].
    exists j. split; [exact Hj|]. split; [exact Eet|]. split; [exact Emd|].
    intros j' Hj'. lia.
  - destruct (inside_min conics vnorm el (S k) l0 lk Hb Hm H)
      as [j [Hj [Eet [Emd Hle]]]].
    apply inside_after_step in H. destruct H as [lp [Hp Hbody]].
    destruct (IH l0 lp Hb Hm Hp) as [jp [Hjp [Pet [Pmd Plt]]]].
    destruct (inside_inv conics vnorm el (S k) l0 lp Hb Hp) as [It _].
    destruct (closest_body_cases conics vnorm el lp)
      as [[l' [E [_ [_ [_ [_ Emin]]]]]]|[t1 [d1 [t2 [d2 [_ [_ [_ E]]]]]]]];
      cbn zeta in E; rewrite E in Hbody; [|discriminate].
    injection Hbody as <-. rewrite It, Pmd, Pet in Emin. simpl in Emin.
    destruct (Qltb _ _) eqn:C; injection Emin as Emd' Eet'.
    + apply Qltb_lt in C. exists (S k). split; [lia|].
      split; [exact Eet'|]. split; [exact Emd'|].
      intros j' Hj'.
      destruct (inside_min conics vnorm el k l0 lp Hb Hm Hp)
        as [j0 [_ [Eet0 [_ Hle0]]]].
      rewrite Eet0 in Pet.
      assert (Ej : scan_time (dt_et l0) (step l0) j0 =
                   scan_time (dt_et l0) (step l0) jp) by congruence.
      eapply Qlt_le_trans; [exact C|]. rewrite <- Ej. apply Hle0. lia.
    + exists jp. split; [lia|]. split; [exact Eet'|]. split; [exact Emd'|].
      exact Plt.
Qed.

(** X6.  When no three-point minimum is confirmed, the returned closest
    approach is the earliest of the smallest samples: every sample of
    the scan inside the SOI taken before the returned time has a strictly
    larger distance. *)
Theorem fallback_minimum_is_the_earliest
        (pha_el : list Q) (start soi : Q) (max_iter : Z)
        (crs : list Q) (t d : Q) :
  let r := calculate_crossings conics spkgeo oscelt vnorm brentq
                               pha_el start soi max_iter in
  outcome r = inr (crs, Some t, Finite d) ->
  (forall u, ~ confirmed_at r u) ->
  forall t' d', In (Eval InsideScan t' d') (events r) -> t' < t -> d < d'.
Proof.
  cbn zeta. intros H Hno t' d' Hin Hlt.
  destruct (returned_run_shape _ _ _ _ _ _ _ _ _ _ _ _ H)
    as [r [tr1 [tr2 [tr3 [l3 [l4 [fl3 S]]]]]]].
  cbn zeta in S.
  destruct S as [Hev [H1 [H3 [_ [_ [Ht [Hd [F|B]]]]]]]].
  - destruct F as [Ha [Hn Etr]].
    destruct (Z.to_nat max_iter) as [|k] eqn:En; [lia|].
    destruct (inside_min_first _ k (mkLocals r 1 [r] Inf None []) l3
                               eq_refl eq_refl Ha)
      as [j [Hj [Eet [Emd Hfirst]]]].
    cbn [dt_et step] in Eet, Emd, Hfirst.
    rewrite Eet in Ht. injection Ht as ->.
    rewrite Emd in Hd. injection Hd as ->.
    rewrite Hev in Hin. apply in_app_or in Hin. destruct Hin as [Hin|Hin].
    { destruct (H1 _ _ _ Hin); discriminate. }
    apply in_app_or in Hin. destruct Hin as [Hin|Hin].
    2:{ destruct (H3 _ _ _ Hin); discriminate. }
    rewrite Etr in Hin. apply in_scan_events in Hin.
    destruct Hin as [_ [j' [Hj' [-> ->]]]].
    apply Hfirst.
    destruct (Nat.lt_ge_cases j' j) as [L|G]; [exact L|]. exfalso.
    apply (Qlt_not_le _ _ Hlt). apply scan_time_mono; [lra|exact G].
  - exfalso. destruct B as [k [lk [t1 [d1 [t2 [d2 B]]]]]].
    destruct B as [_ [_ [_ [_ [_ B]]]]]. cbn zeta in B.
    destruct B as [_ [Etr _]]. eapply Hno. eexists. rewrite Hev.
    apply in_or_app. right. apply in_or_app. left. rewrite Etr.
    apply in_or_app. right. right. left. reflexivity.
Qed.


Section Bracketed2.

(** The root finder answers inside the bracket it is given. *)
Hypothesis brentq_in_bracket :
  forall f a b x, a <= b -> brentq f a b = Some x -> a <= x /\ x <= b.

(** X8.  The first crossing returned lies between [start - 20] and the
    last scan time of the budget, [start + 20 (max_iter - 1)]: it can
    precede the start time, by up to one step. *)
Theorem entry_crossing_range
        (pha_el : list Q) (start soi : Q) (max_iter : Z)
        (crs : list Q) (met : option Q) (md : dist) :
  outcome (calculate_crossings conics spkgeo oscelt vnorm brentq
                               pha_el start soi max_iter)
  = inr (crs, met, md) ->
  exists entry rest,
    crs = entry :: rest /\
    start - 20 <= entry /\
    entry <= start + 20 * inject_Z (max_iter - 1).
Proof.
  intro H.
  destruct (run_cases conics spkgeo oscelt vnorm brentq
                      pha_el start soi max_iter)
    as [[_ E]|[[i [_ [_ E]]]|[i [r [fl2 [l3 [tr2 C]]]]]]];
    cbn zeta in *; try (rewrite E in H; discriminate).
  destruct C as [Hi [_ [Er [_ C]]]].
  apply brentq_in_bracket in Er; [|lra].
  assert (Hr : start - 20 <= r /\
               r <= start + 20 * inject_Z (max_iter - 1)).
  { destruct Er as [Ea Eb]. rewrite scan_time_eq in Ea, Eb.
    assert (0 <= inject_Z (Z.of_nat i) /\
            inject_Z (Z.of_nat i) <= inject_Z (max_iter - 1)) as [P1 P2].
    { split; [change 0 with (inject_Z 0)|]; rewrite <- Zle_Qle; lia. }
    split; lra. }
  destruct C as [[_ E]|[[j [_ [_ E]]]|[j [x [_ [_ [_ E]]]]]]];
    rewrite E in H; try discriminate; injection H as <- _ _;
      eexists _, _; (split; [reflexivity|exact Hr]).
Qed.

End Bracketed2.

End ApproachAndExit.

(** * Further properties of [quadratic_approximation] *)

(** X9.  For evenly spaced times and a strictly lowest middle sample the
    fitted time lies within half a step of the middle time, on the side
    of the lower outer sample, and is the middle time when the outer
    samples are equal. *)
Theorem quadratic_approximation_near_middle (t1 d1 d2 d3 h : Q) :
  0 < h -> d2 < d1 -> d2 < d3 ->
  let v := quadratic_approximation t1 d1 (t1 + h) d2 (t1 + h + h) d3 in
  t1 + h - h / 2 < v /\ v < t1 + h + h / 2 /\
  (d1 < d3 -> v < t1 + h) /\
  (d3 < d1 -> t1 + h < v) /\
  (d1 == d3 -> v == t1 + h).
Proof.
  intros Hh H1 H3. cbn zeta.
  rewrite (quadratic_approximation_even t1 d1 d2 d3 h Hh H1 H3).
  assert (HD : 0 < 2 * (d1 - 2 * d2 + d3)) by lra.
  set (q := h * (d3 - d1) / (2 * (d1 - 2 * d2 + d3))).
  assert (Hq : q * (2 * (d1 - 2 * d2 + d3)) == h * (d3 - d1)).
  { unfold q. field. lra. }
  assert (Hh2 : h / 2 == h * (1 # 2)) by (field; discriminate).
  rewrite Hh2.
  assert (Hlt : q < h * (1 # 2)).
  { unfold q. apply Qlt_shift_div_r; [exact HD|]. nra. }
  assert (Hgt : - (h * (1 # 2)) < q).
  { unfold q. apply Qlt_shift_div_l; [exact HD|]. nra. }
  split; [lra|]. split; [lra|]. split; [|split].
  - intro L. assert (0 < q); [|lra].
    unfold q. apply Qlt_shift_div_l; [exact HD|]. nra.
  - intro L. assert (q < 0); [|lra].
    unfold q. apply Qlt_shift_div_r; [exact HD|]. nra.
  - intro E. assert (q == 0); [|lra].
    unfold q. rewrite E. field. lra.
Qed.

Lemma quadratic_approximation_near_middle_witness :
  let v := quadratic_approximation 100 9 (100 + 2) 1 (100 + 2 + 2) 5 in
  100 + 2 - 2 / 2 < v /\ v < 100 + 2 + 2 / 2 /\
  (9 < 5 -> v < 100 + 2) /\
  (5 < 9 -> 100 + 2 < v) /\
  (9 == 5 -> v == 100 + 2).
Proof.
  apply (quadratic_approximation_near_middle 100 9 1 5 2); reflexivity.
Defined.




(** * Properties of [fix_requir-ts.py] *)

Lemma remove_char_in (c : N) (text : list N) (ch : N) :
  In ch (remove_char c text) <-> In ch text /\ ch <> c.
Proof.
  unfold remove_char. rewrite filter_In, negb_true_iff, N.eqb_neq.
  reflexivity.
Qed.

Section SanitizerProperties.

Variable decode_ignore : list Byte.byte -> list N.
Variable isprintable : N -> bool.

(** The three passes of [clean_text] as one. *)
Lemma clean_text_filter (text : list N) :
  clean_text isprintable text =
  filter (fun ch => negb (N.eqb ch NUL) && negb (N.eqb ch CR)
                    && kept isprintable ch) text.
Proof.
  unfold clean_text, remove_char.
  induction text as [|ch text IH]; [reflexivity|].
  cbn [filter]. destruct (N.eqb ch NUL); cbn [negb andb]; [exact IH|].
  cbn [filter]. destruct (N.eqb ch CR); cbn [negb andb]; [exact IH|].
  cbn [filter]. destruct (kept isprintable ch); [|exact IH].
  rewrite IH. reflexivity.
Qed.

(** X12.  Whatever the bytes of the input file, the text written holds
    no NUL and no carriage return, and each of its characters is
    printable or a line feed or a tab. *)
Theorem fix_requirements_output_is_clean (data : list Byte.byte) (ch : N) :
  In ch (fix_requirements decode_ignore isprintable data) ->
  ch <> NUL /\ ch <> CR /\
  (isprintable ch = true \/ ch = LF \/ ch = TAB).
Proof.
  unfold fix_requirements, clean_text. intro H.
  apply filter_In in H. destruct H as [H K].
  apply remove_char_in in H. destruct H as [H Hcr].
  apply remove_char_in in H. destruct H as [_ Hnul].
  split; [exact Hnul|]. split; [exact Hcr|].
  unfold kept in K. apply orb_true_iff in K. destruct K as [K|K];
    [left; exact K|].
  apply orb_true_iff in K. destruct K as [K|K]; apply N.eqb_eq in K;
    right; [left|right]; exact K.
Qed.

(** X13.  A text that is already clean is written as it is: nothing but
    NULs, carriage returns and characters that are neither printable nor
    a line feed nor a tab is ever removed, and nothing is added or
    reordered. *)
Theorem clean_text_keeps_clean_text (text : list N) :
  (forall ch, In ch text ->
              ch <> NUL /\ ch <> CR /\
              (isprintable ch = true \/ ch = LF \/ ch = TAB)) ->
  clean_text isprintable text = text.
Proof.
  rewrite clean_text_filter.
  induction text as [|ch text IH]; intro H; [reflexivity|].
  destruct (H ch (or_introl eq_refl)) as [Hnul [Hcr Hk]].
  cbn [filter].
  apply N.eqb_neq in Hnul, Hcr. rewrite Hnul, Hcr. cbn [negb andb].
  assert (K : kept isprintable ch = true).
  { unfold kept. destruct Hk as [P|[E|E]].
    - rewrite P. reflexivity.
    - apply N.eqb_eq in E. rewrite E. apply orb_true_r.
    - apply N.eqb_eq in E. rewrite E, !orb_true_r. reflexivity. }
  rewrite K, IH; [reflexivity|].
  intros c Hc. apply H. right. exact Hc.
Qed.

(** X14.  Every line feed and every tab of the decoded text is kept, so
    the number of lines does not change. *)
Theorem clean_text_keeps_line_feeds_and_tabs (text : list N) :
  count_occ N.eq_dec (clean_text isprintable text) LF =
  count_occ N.eq_dec text LF /\
  count_occ N.eq_dec (clean_text isprintable text) TAB =
  count_occ N.eq_dec text TAB.
Proof.
  rewrite clean_text_filter.
  assert (KL : negb (N.eqb LF NUL) && negb (N.eqb LF CR)
               && kept isprintable LF = true).
  { unfold kept. rewrite N.eqb_refl, orb_true_r. reflexivity. }
  assert (KT : negb (N.eqb TAB NUL) && negb (N.eqb TAB CR)
               && kept isprintable TAB = true).
  { unfold kept. rewrite N.eqb_refl, !orb_true_r. reflexivity. }
  induction text as [|ch text [IH1 IH2]]; [split; reflexivity|].
  cbn [filter].
  destruct (N.eq_dec ch LF) as [->|NL].
  - rewrite KL. cbn [count_occ].
    destruct (N.eq_dec LF LF) as [_|C]; [|contradiction].
    destruct (N.eq_dec LF TAB) as [C|_]; [discriminate|].
    rewrite IH1, IH2. split; reflexivity.
  - destruct (N.eq_dec ch TAB) as [->|NT].
    + rewrite KT. cbn [count_occ].
      destruct (N.eq_dec TAB LF) as [C|_]; [discriminate|].
      destruct (N.eq_dec TAB TAB) as [_|C]; [|contradiction].
      rewrite IH1, IH2. split; reflexivity.
    + destruct (negb (N.eqb ch NUL) && negb (N.eqb ch CR)
                && kept isprintable ch); cbn [count_occ];
        destruct (N.eq_dec ch LF) as [C|_]; try contradiction;
          destruct (N.eq_dec ch TAB) as [C|_]; try contradiction;
            split; assumption.
Qed.

End SanitizerProperties.

Lemma clean_text_keeps_clean_text_witness :
  clean_text ascii_printable [110; 117; 109; 112; 121; 10; 9; 115]%N
  = [110; 117; 109; 112; 121; 10; 9; 115]%N.
Proof.
  apply clean_text_keeps_clean_text. intros ch H.
  repeat (destruct H as [<-|H];
          [split; [discriminate|]; split; [discriminate|];
           first [left; reflexivity
                 |right; left; reflexivity
                 |right; right; reflexivity]|]).
  destruct H.
Defined.

Lemma fix_requirements_output_is_clean_witness :
  let data := [Byte.x6e; Byte.x00; Byte.x0d; Byte.x0a; Byte.x01] in
  fix_requirements decode_ascii ascii_printable data = [110; 10]%N /\
  (10 <> NUL /\ 10 <> CR /\
   (ascii_printable 10 = true \/ 10 = LF \/ 10 = TAB))%N.
Proof.
  cbv zeta. split; [vm_compute; reflexivity|].
  apply (fix_requirements_output_is_clean
           decode_ascii ascii_printable
           [Byte.x6e; Byte.x00; Byte.x0d; Byte.x0a; Byte.x01]).
  vm_compute. right. left. reflexivity.
Defined.

(** * Runs for the further properties *)

Lemma crossings_returned_and_last_scan_witness :
  let r := Toy.calculate_crossings 100 [95; 1] 0 5 1 in
  outcome r = inr ([0], Some 0, Finite 95) /\
  ((List.length [0] = 1%nat /\
    forall u d, In (Eval SecondScan u d) (events r) -> d < 5)
   \/
   (List.length [0] = 2%nat /\
    exists u d, In (Eval SecondScan u d) (events r) /\ 5 <= d)).
Proof.
  cbv zeta.
  assert (Ho : outcome (Toy.calculate_crossings 100 [95; 1] 0 5 1)
               = inr ([0], Some 0, Finite 95)) by (vm_compute; reflexivity).
  split; [exact Ho|].
  exact (crossings_returned_and_last_scan
           Toy.conics (Toy.spkgeo 100) Toy.oscelt Toy.vnorm Toy.brentq
           [95; 1] 0 5 1 [0] (Some 0) (Finite 95) Ho).
Defined.

Lemma fallback_minimum_is_the_earliest_witness :
  let r := Toy.calculate_crossings 3 [-2; 1] 0 5 2 in
  outcome r = inr ([0], Some 1, Finite 1) /\
  In (Eval InsideScan 0 2) (events r) /\
  forall t' d', In (Eval InsideScan t' d') (events r) -> t' < 1 -> 1 < d'.
Proof.
  cbv zeta.
  assert (Ho : outcome (Toy.calculate_crossings 3 [-2; 1] 0 5 2)
               = inr ([0], Some 1, Finite 1)) by (vm_compute; reflexivity).
  split; [exact Ho|]. split; [vm_compute; do 3 right; left; reflexivity|].
  apply (fallback_minimum_is_the_earliest
           Toy.conics (Toy.spkgeo 3) Toy.oscelt Toy.vnorm Toy.brentq
           [-2; 1] 0 5 2 [0] 1 1 Ho).
  intros u [d Hin]. revert Hin. apply no_vertex_eval_in.
  vm_compute. reflexivity.
Defined.


Lemma entry_crossing_range_witness :
  exists entry rest,
    [0; 643 # 64] = entry :: rest /\
    -40 - 20 <= entry /\ entry <= -40 + 20 * inject_Z (5 - 1).
Proof.
  apply (entry_crossing_range
           Toy.conics (Toy.spkgeo 3) Toy.oscelt Toy.vnorm Toy.brentq
           Toy_brentq_in_bracket [-2; 1] (-40) 5 5
           [0; 643 # 64] (Some (2066242608 # 1033121304)) (Finite 0)).
  vm_compute. reflexivity.
Defined.

(** * When the scan inside the SOI leaves *)

Lemma scan_events_snoc (st : site) (f : Q -> Q) (m : nat) : forall t s,
  scan_events st f t s (S m) =
  scan_events st f t s m ++
  [Eval st (scan_time t s m) (f (scan_time t s m))].
Proof.
  induction m as [|m IH]; intros t s; [reflexivity|].
  change (scan_events st f t s (S (S m)))
    with (Eval st t (f t) :: scan_events st f (t + s) s (S m)).
  rewrite IH. reflexivity.
Qed.

Lemma inside_after_prefix (f : locals -> result) (m p : nat) (l l' : locals) :
  inside_after f (m + p) l = Some l' ->
  exists lm, inside_after f m l = Some lm.
Proof.
  revert l'. induction p as [|p IH]; intros l' H.
  - rewrite Nat.add_0_r in H. exists l'. exact H.
  - rewrite Nat.add_succ_r, inside_after_snoc in H.
    destruct (inside_after f (m + p) l) as [lp|] eqn:E; [|discriminate].
    apply (IH lp). reflexivity.
Qed.

Section InsideScan.

Variable conics : list Q -> Q -> list Q.
Variable vnorm : list Q -> Q.

(** Short names for the functions of the model on this ephemeris. *)
Local Abbreviation eda := (earth_dist_at conics vnorm).
Local Abbreviation body := (closest_body conics vnorm).

(** A pass on a window of two with a strictly lowest middle leaves. *)
Lemma closest_body_dip (el : list Q) (l : locals) (t1 d1 t2 d2 : Q) :
  bracket l = [(t1, d1); (t2, d2)] ->
  d2 < d1 -> d2 < eda el (dt_et l) ->
  let d3 := eda el (dt_et l) in
  let t_min := quadratic_approximation t1 d1 t2 d2 (dt_et l) d3 in
  body el l =
  (Break,
   mkLocals (t_min + 10) 10 (soi_crossings l)
            (Finite (eda el t_min)) (Some t_min)
            [(t1, d1); (t2, d2); (dt_et l, d3)],
   [Eval InsideScan (dt_et l) d3; Eval VertexEval t_min (eda el t_min)]).
Proof.
  intros Hb H1 H3. destruct l as [t s c md me b]. simpl in Hb. subst b.
  apply Qltb_lt in H1, H3. unfold closest_body. simpl in *.
  rewrite H1, H3. reflexivity.
Qed.

(** A pass that leaves does so on a dip of the samples. *)
Lemma break_is_a_dip (el : list Q) (l0 : locals) (m : nat) (lm l' : locals)
      (tr : list event) :
  bracket l0 = [] ->
  inside_after (body el) m l0 = Some lm ->
  body el lm = (Break, l', tr) ->
  exists k, m = S (S k) /\ strict_dip (eda el) (dt_et l0) (step l0) k.
Proof.
  intros Hb Ha Hbody.
  destruct (inside_inv conics vnorm el m l0 lm Hb Ha) as [It [_ [_ Iw]]].
  destruct (closest_body_cases conics vnorm el lm)
    as [[l'' [E _]]|[t1 [d1 [t2 [d2 [Hw [H1 [H3 _]]]]]]]];
    [cbn zeta in E; rewrite E in Hbody; discriminate|].
  rewrite Hw in Iw. destruct m as [|[|k]]; try discriminate.
  exists k. split; [reflexivity|].
  cbn [window_before] in Iw. unfold sample_at in Iw.
  assert (Ed1 : d1 = eda el (scan_time (dt_et l0) (step l0) k))
    by congruence.
  assert (Ed2 : d2 = eda el (scan_time (dt_et l0) (step l0) (S k)))
    by congruence.
  rewrite It, Ed1, Ed2 in *. split; assumption.
Qed.

Lemma inside_after_without_dip (el : list Q) (l0 : locals) (m : nat) :
  bracket l0 = [] ->
  (forall k, (k + 2 < m)%nat ->
             ~ strict_dip (eda el) (dt_et l0) (step l0) k) ->
  exists lm, inside_after (body el) m l0 = Some lm.
Proof.
  intros Hb. induction m as [|m IH]; intro H; [exists l0; reflexivity|].
  destruct IH as [lm Hlm]; [intros k Hk; apply H; lia|].
  rewrite inside_after_snoc, Hlm.
  destruct (body el lm) as [[[| |e] l'] tr] eqn:E.
  - exists l'. reflexivity.
  - exfalso. destruct (break_is_a_dip el l0 m lm l' tr Hb Hlm E)
      as [k [-> D]]. apply (H k); [lia|exact D].
  - exfalso.
    destruct (closest_body_cases conics vnorm el lm)
      as [[l'' [E' _]]|[t1 [d1 [t2 [d2 [_ [_ [_ E']]]]]]]];
      cbn zeta in E'; rewrite E' in E; discriminate.
Qed.

(** X15.  The scan inside the SOI, started with an empty window, leaves
    at the first dip of its samples: if samples [k], [k + 1], [k + 2]
    are the first three in a row with a strictly lowest middle one and
    lie within the budget, the loop is left right after sample [k + 2],
    with the time fitted to these three samples as the closest approach,
    the distance evaluated there, [dt_et] ten past it and step 10. *)
Theorem closest_approach_scan_stops_at_first_dip
        (el : list Q) (n : nat) (l0 : locals) (k : nat) :
  bracket l0 = [] ->
  (k + 2 < n)%nat ->
  strict_dip (eda el) (dt_et l0) (step l0) k ->
  (forall k', (k' < k)%nat ->
              ~ strict_dip (eda el) (dt_et l0) (step l0) k') ->
  let time := scan_time (dt_et l0) (step l0) in
  let t_min := quadratic_approximation
                 (time k) (eda el (time k))
                 (time (S k)) (eda el (time (S k)))
                 (time (S (S k))) (eda el (time (S (S k)))) in
  closest_approach_scan conics vnorm el n l0 =
  (Break,
   mkLocals (t_min + 10) 10 (soi_crossings l0)
            (Finite (eda el t_min)) (Some t_min)
            [(time k, eda el (time k));
             (time (S k), eda el (time (S k)));
             (time (S (S k)), eda el (time (S (S k))))],
   scan_events InsideScan (eda el) (dt_et l0) (step l0) (S (S (S k))) ++
   [Eval VertexEval t_min (eda el t_min)]).
Proof.
  intros Hb Hk [D1 D3] Hfirst. cbn zeta.
  destruct (inside_after_without_dip el l0 (S (S k)) Hb) as [lk Hlk].
  { intros k' Hk'. apply Hfirst. lia. }
  destruct (inside_inv conics vnorm el (S (S k)) l0 lk Hb Hlk)
    as [It [_ [Ic Iw]]].
  cbn [window_before] in Iw. unfold sample_at in Iw.
  pose proof (closest_body_dip el lk _ _ _ _ Iw) as B.
  rewrite It in B. specialize (B D1 D3). cbn zeta in B. rewrite Ic in B.
  destruct (closest_approach_scan_cases conics vnorm el n l0)
    as [[ln [Ha _]]|[k0 [lk0 [l' [tr [Hk0 [Ha [Hbody Es]]]]]]]].
  - exfalso.
    replace n with (S (S (S k)) + (n - S (S (S k))))%nat in Ha by lia.
    apply inside_after_prefix in Ha. destruct Ha as [l3 Ha].
    rewrite inside_after_snoc, Hlk, B in Ha. discriminate.
  - destruct (break_is_a_dip el l0 k0 lk0 l' tr Hb Ha Hbody)
      as [k' [-> D]].
    assert (k' = k) as ->.
    { destruct (Nat.lt_trichotomy k' k) as [L|[E|L]]; [|exact E|].
      - exfalso. apply (Hfirst k' L). exact D.
      - exfalso.
        replace (S (S k')) with (S (S (S k)) + (k' - S k))%nat in Ha by lia.
        apply inside_after_prefix in Ha. destruct Ha as [l3 Ha].
        rewrite inside_after_snoc, Hlk, B in Ha. discriminate. }
    rewrite Hlk in Ha. injection Ha as <-. rewrite B in Hbody.
    injection Hbody as <- <-. rewrite Es.
    rewrite (scan_events_snoc InsideScan _ (S (S k))), <- app_assoc.
    reflexivity.
Qed.

(** X16.  Without a dip among the samples of the budget the loop runs
    all its passes, evaluates at all [n] scan times and at no fitted
    time, and does not change the step. *)
Theorem closest_approach_scan_without_dip
        (el : list Q) (n : nat) (l0 : locals) :
  bracket l0 = [] ->
  (forall k, (k + 2 < n)%nat ->
             ~ strict_dip (eda el) (dt_et l0) (step l0) k) ->
  exists ln,
    closest_approach_scan conics vnorm el n l0 =
    (Continue, ln,
     scan_events InsideScan (eda el) (dt_et l0) (step l0) n) /\
    dt_et ln = scan_time (dt_et l0) (step l0) n /\
    step ln = step l0.
Proof.
  intros Hb H.
  destruct (closest_approach_scan_cases conics vnorm el n l0)
    as [[ln [Ha Es]]|[k0 [lk0 [l' [tr [Hk0 [Ha [Hbody _]]]]]]]].
  - exists ln. split; [exact Es|].
    destruct (inside_inv conics vnorm el n l0 ln Hb Ha) as [It [Is _]].
    split; assumption.
  - exfalso. destruct (break_is_a_dip el l0 k0 lk0 l' tr Hb Ha Hbody)
      as [k [-> D]]. apply (H k); [lia|exact D].
Qed.

End InsideScan.

Lemma closest_approach_scan_stops_at_first_dip_witness :
  closest_approach_scan Toy.conics Toy.vnorm [-2; 1] 5
                        (mkLocals 0 1 [0] Inf None []) =
  (Break,
   mkLocals ((2066242608 # 1033121304) + 10) 10 [0] (Finite 0)
            (Some (2066242608 # 1033121304)) [(1, 1); (2, 0); (3, 1)],
   [Eval InsideScan 0 2; Eval InsideScan 1 1; Eval InsideScan 2 0;
    Eval InsideScan 3 1; Eval VertexEval (2066242608 # 1033121304) 0]).
Proof.
  assert (H := closest_approach_scan_stops_at_first_dip
                 Toy.conics Toy.vnorm [-2; 1] 5
                 (mkLocals 0 1 [0] Inf None []) 1 eq_refl).
  cbv zeta in H. rewrite H.
  - vm_compute. reflexivity.
  - lia.
  - split; vm_compute; reflexivity.
  - intros k' Hk' [D1 D3]. assert (k' = O) as -> by lia.
    vm_compute in D3. discriminate D3.
Defined.

Lemma closest_approach_scan_without_dip_witness :
  exists ln,
    closest_approach_scan Toy.conics Toy.vnorm [95; 1] 3
                          (mkLocals 0 1 [0] Inf None []) =
    (Continue, ln,
     scan_events InsideScan (Toy.earth_dist_at [95; 1]) 0 1 3) /\
    dt_et ln = scan_time 0 1 3 /\ step ln = 1.
Proof.
  apply (closest_approach_scan_without_dip
           Toy.conics Toy.vnorm [95; 1] 3 (mkLocals 0 1 [0] Inf None [])
           eq_refl).
  intros k Hk [D1 _]. assert (k = O) as -> by lia.
  vm_compute in D1. discriminate D1.
Defined.
